(** * Bank.cpp: the no-overdraft mini bank, its global log and undo

    A shallow embedding of [src/Bank.cpp] (structs [Tx], [Account],
    [Checking], [Bank]) and the properties of its transaction / undo model.

    Modelling choices, all read off the source:
    - [double] is IEEE binary64, written with the kernel's primitive floats
      ([PrimFloat.float]); [<=], [<], [==], [+=], [-=] are [leb], [ltb], [eqb],
      [add], [sub].  Comparisons with NaN are false, as in C++.
    - [int] account ids are [Z]; [std::to_string(int)] is stdpp's decimal
      [pretty].  Signed overflow of [next++] (undefined behaviour after 2^31
      accounts) is outside the embedding.
    - [unordered_map<int, unique_ptr<Account>>] is a [gmap Z Account.t]; the
      reference returned by [Bank::acc] is modelled by writing the mutated
      account back under the same key.
    - [vector<Tx>] is a [list Tx.t] with [emplace_back] as append at the end
      and [pop_back] as [removelast].
    - a C++ exception leaves the bank in whatever state it had reached, so a
      call returns the (possibly mutated) bank next to its outcome.
    - [Tx::when] (the wall-clock stamp set by [time(nullptr)], read only by
      [Account::print]) and the printing members are not part of the
      embedding. *)

From Stdlib Require Import ZArith List Bool.
From Stdlib Require Import Floats.
From stdpp Require Import base strings pretty gmap list.

Open Scope Z_scope.

(** ** Transactions *)

Inductive TxType := Deposit | Withdraw | TransferIn | TransferOut.

#[global] Instance TxType_eq_dec : EqDecision TxType.
Proof. solve_decision. Defined.

Module Tx.
Record t := mk { acc : Z; type : TxType; amt : float; note : string }.
End Tx.

(** ** Exceptions: [BankError] and its subclasses, each with its [what()] *)

Inductive exn :=
| BankError (what : string)
| NotFound (what : string)
| Insufficient (what : string).

Definition what (e : exn) : string :=
  match e with BankError w | NotFound w | Insufficient w => w end.

(** ** Accounts *)

Module Account.
Record t := mk { id : Z; owner : string; bal : float; hist : list Tx.t }.

(** The constructor [Account(int i, string o, double init)]. *)
Definition new (i : Z) (o : string) (init : float) : t :=
  {| id := i; owner := o; bal := init;
     hist := if (0 <? init)%float
             then [Tx.mk i Deposit init "initial"] else [] |}.

(** [Account::deposit]: throws before any mutation or mutates. *)
Definition deposit (v : float) (note : string) (s : t) : exn + t :=
  if (v <=? 0)%float then inl (BankError "deposit>0")
  else inr {| id := id s; owner := owner s;
              bal := (bal s + v)%float;
              hist := hist s ++ [Tx.mk (id s) Deposit v note] |}.

(** [Account::withdraw]. *)
Definition withdraw (v : float) (note : string) (s : t) : exn + t :=
  if (v <=? 0)%float then inl (BankError "withdraw>0")
  else if (bal s <? v)%float then inl (Insufficient "insufficient")
  else inr {| id := id s; owner := owner s;
              bal := (bal s - v)%float;
              hist := hist s ++ [Tx.mk (id s) Withdraw v note] |}.
End Account.

(** [Checking] adds nothing to [Account] (no overdraft: base behaviour). *)
Definition Checking (i : Z) (o : string) (init : float) : Account.t :=
  Account.new i o init.

(** ** The bank *)

Module Bank.
Record t := mk { a : gmap Z Account.t; log : list Tx.t; next : Z }.

(** A default-constructed [Bank]. *)
Definition init : t := {| a := ∅; log := []; next := 1 |}.

(** Member functions run in a state monad over the bank in which a thrown
    exception keeps the state reached so far. *)
Definition M (A : Type) : Type := t -> (exn + A) * t.

Definition ret {A} (x : A) : M A := fun b => (inr x, b).
Definition throw {A} (e : exn) : M A := fun b => (inl e, b).
Definition bind {A B} (m : M A) (k : A -> M B) : M B :=
  fun b => match m b with
           | (inl e, b') => (inl e, b')
           | (inr x, b') => k x b'
           end.

Notation "m ;;; k" := (bind m (fun _ => k))
  (at level 90, right associativity, only parsing).

(** [log.emplace_back(acc, type, amt, note)] *)
Definition emplace_back (x : Tx.t) : M unit :=
  fun b => (inr tt, {| a := a b; log := log b ++ [x]; next := next b |}).

(** [log.pop_back()] (only called on a non-empty log) *)
Definition pop_back : M unit :=
  fun b => (inr tt, {| a := a b; log := removelast (log b); next := next b |}).

(** [Bank::acc]: the account stored under [id], or [NotFound]. *)
Definition acc (id : Z) : M Account.t :=
  fun b => match a b !! id with
           | Some s => (inr s, b)
           | None => (inl (NotFound "no account"), b)
           end.

(** The bank whose account object under [id] has become [s]. *)
Definition set_acc (id : Z) (s : Account.t) (b : t) : t :=
  {| a := <[id := s]> (a b); log := log b; next := next b |}.

(** [acc(id).f(...)] for a mutating member [f] of [Account]: the call acts
    on the object owned by the map, so its effect is stored under [id]. *)
Definition on_acc (id : Z) (f : Account.t -> exn + Account.t) : M unit :=
  bind (acc id) (fun s =>
    match f s with
    | inl e => throw e
    | inr s' => fun b => (inr tt, set_acc id s' b)
    end).

(** [Bank::createChecking] *)
Definition createChecking (owner : string) (init : float) : M Z :=
  fun b =>
    let id := next b in
    let b1 := {| a := <[id := Checking id owner init]> (a b);
                 log := log b; next := next b + 1 |} in
    ((if (0 <? init)%float
      then emplace_back (Tx.mk id Deposit init "initial")
      else ret tt) ;;; ret id) b1.

(** [Bank::deposit] *)
Definition deposit (id : Z) (v : float) (note : string) : M unit :=
  on_acc id (Account.deposit v note) ;;;
  emplace_back (Tx.mk id Deposit v note).

(** [Bank::withdraw] *)
Definition withdraw (id : Z) (v : float) (note : string) : M unit :=
  on_acc id (Account.withdraw v note) ;;;
  emplace_back (Tx.mk id Withdraw v note).

(** [note.size() ? ": " + note : ""] *)
Definition note_suffix (note : string) : string :=
  if (String.length note =? 0)%nat then "" else ": " +:+ note.

(** [Bank::transfer] *)
Definition transfer (from to : Z) (v : float) (note : string) : M unit :=
  if decide (from = to) then throw (BankError "same account")
  else
    on_acc from (Account.withdraw v ("to " +:+ pretty to +:+ note_suffix note)) ;;;
    on_acc to (Account.deposit v ("from " +:+ pretty from +:+ note_suffix note)) ;;;
    emplace_back (Tx.mk from TransferOut v ("to " +:+ pretty to)) ;;;
    emplace_back (Tx.mk to TransferIn v ("from " +:+ pretty from)).

(** [try { body; return true; } catch (exception& e) { err = e.what();
    return false; }] *)
Definition try_catch (body : M unit) (err : string) (b : t)
  : (bool * string) * t :=
  match body b with
  | (inr _, b') => ((true, err), b')
  | (inl e, b') => ((false, what e), b')
  end.

(** The [try] block of the transfer-pair branch of [undo]. *)
Definition undo_pair (prev lastTx : Tx.t) : M unit :=
  let to := Tx.acc lastTx in
  let from := Tx.acc prev in
  let v := Tx.amt lastTx in
  on_acc to (Account.withdraw v "undo transfer") ;;;
  on_acc from (Account.deposit v "undo transfer") ;;;
  pop_back ;;;
  pop_back.

(** The [try] block of the single-entry branch of [undo]. *)
Definition undo_single (lastTx : Tx.t) : M unit :=
  (match Tx.type lastTx with
   | Deposit | TransferIn =>
       on_acc (Tx.acc lastTx) (Account.withdraw (Tx.amt lastTx) "undo")
   | Withdraw | TransferOut =>
       on_acc (Tx.acc lastTx) (Account.deposit (Tx.amt lastTx) "undo")
   end) ;;;
  pop_back.

(** [Bank::undo(string& err)]: the returned flag, the final [err] and the
    bank. *)
Definition undo (err : string) (b : t) : (bool * string) * t :=
  match last (log b) with
  | None => ((false, "nothing to undo"), b)
  | Some lastTx =>
      let single := try_catch (undo_single lastTx) err b in
      if bool_decide (Tx.type lastTx = TransferIn)
         && (2 <=? length (log b))%nat
      then
        match log b !! (length (log b) - 2)%nat with
        | Some prev =>
            if bool_decide (Tx.type prev = TransferOut)
               && (Tx.amt prev =? Tx.amt lastTx)%float
            then try_catch (undo_pair prev lastTx) err b
            else single
        | None => single (* not reached: the log has two entries *)
        end
      else single
  end.
End Bank.

(** ** Runs of the bank

    The mutating calls a client (such as [main]'s menu) can make, and the
    banks they lead to from a default-constructed one.  A call that throws
    still leaves its bank behind. *)

Inductive call :=
| CreateChecking (owner : string) (init : float)
| CallDeposit (id : Z) (v : float) (note : string)
| CallWithdraw (id : Z) (v : float) (note : string)
| CallTransfer (from to : Z) (v : float) (note : string)
| CallUndo (err : string).

Definition step (b : Bank.t) (c : call) : Bank.t :=
  match c with
  | CreateChecking owner init => snd (Bank.createChecking owner init b)
  | CallDeposit id v note => snd (Bank.deposit id v note b)
  | CallWithdraw id v note => snd (Bank.withdraw id v note b)
  | CallTransfer from to v note => snd (Bank.transfer from to v note b)
  | CallUndo err => snd (Bank.undo err b)
  end.

Definition run (cs : list call) : Bank.t := foldl step Bank.init cs.

(** The running signed sum of a history, in the order of its entries:
    [Deposit] and [TransferIn] amounts added, [Withdraw] and [TransferOut]
    amounts subtracted, in [double] arithmetic. *)
Definition signed (s : float) (x : Tx.t) : float :=
  match Tx.type x with
  | Deposit | TransferIn => (s + Tx.amt x)%float
  | Withdraw | TransferOut => (s - Tx.amt x)%float
  end.

Definition signed_sum (h : list Tx.t) : float := foldl signed 0%float h.

(** The tail of a log that [undo] treats as one transfer: the
    second-to-last entry is a [TransferOut], the last a [TransferIn], and
    their amounts compare equal. *)
Definition transfer_pair (prev lastTx : Tx.t) : Prop :=
  Tx.type prev = TransferOut /\ Tx.type lastTx = TransferIn /\
  (Tx.amt prev =? Tx.amt lastTx)%float = true.

Definition pair_at_tail (l : list Tx.t) : Prop :=
  exists l' prev lastTx, l = l' ++ [prev; lastTx] /\ transfer_pair prev lastTx.

(** The account call by which [undo] reverses a single entry. *)
Definition reversal (x : Tx.t) : Account.t -> exn + Account.t :=
  match Tx.type x with
  | Deposit | TransferIn => Account.withdraw (Tx.amt x) "undo"
  | Withdraw | TransferOut => Account.deposit (Tx.amt x) "undo"
  end.

(** The kind of the entry that reverses an entry of kind [k]. *)
Definition compensating (k : TxType) : TxType :=
  match k with
  | Deposit | TransferIn => Withdraw
  | Withdraw | TransferOut => Deposit
  end.

(** Every entry of the global log names an account of the map and carries an
    amount that passed the accounts' guard [v <= 0]. *)
Definition log_ok (b : Bank.t) : Prop :=
  forall x, x ∈ Bank.log b ->
    is_Some (Bank.a b !! Tx.acc x) /\ (Tx.amt x <=? 0)%float = false.

(** The accounts a bank can come to hold under key [i] when every initial
    balance satisfies [ok]: made by the constructor with id [i], then changed
    by deposits and withdrawals that returned normally. *)
Inductive account_from (ok : float -> Prop) (i : Z) : Account.t -> Prop :=
| from_new owner init :
    ok init -> account_from ok i (Account.new i owner init)
| from_deposit X X' v note :
    account_from ok i X -> Account.deposit v note X = inr X' ->
    account_from ok i X'
| from_withdraw X X' v note :
    account_from ok i X -> Account.withdraw v note X = inr X' ->
    account_from ok i X'.

(** A call whose initial balance, if it has one, satisfies [ok]. *)
Definition call_ok (ok : float -> Prop) (c : call) : Prop :=
  match c with
  | CreateChecking _ init => ok init
  | _ => True
  end.

(** An initial balance that is positive or (positive) zero. *)
Definition init_ok (init : float) : Prop :=
  (0 <? init)%float = true \/ init = 0%float.

(** The three outcomes of [acc(id).f(...)]: the account is missing, [f]
    throws, or [f] returns and its effect is stored. *)
Inductive on_acc_spec (id : Z) (f : Account.t -> exn + Account.t) (b : Bank.t)
  : (exn + unit) * Bank.t -> Prop :=
| OnAccMissing :
    Bank.a b !! id = None ->
    on_acc_spec id f b (inl (NotFound "no account"), b)
| OnAccThrows s e :
    Bank.a b !! id = Some s -> f s = inl e ->
    on_acc_spec id f b (inl e, b)
| OnAccDone s s' :
    Bank.a b !! id = Some s -> f s = inr s' ->
    on_acc_spec id f b (inr tt, Bank.set_acc id s' b).

(** One account call that returned normally, as it shows in the map. *)
Inductive account_call (m : gmap Z Account.t) : gmap Z Account.t -> Prop :=
| call_deposit i X X' v note :
    m !! i = Some X -> Account.deposit v note X = inr X' ->
    account_call m (<[i := X']> m)
| call_withdraw i X X' v note :
    m !! i = Some X -> Account.withdraw v note X = inr X' ->
    account_call m (<[i := X']> m).

(** Every account of the map is an [account_from] its key. *)
Definition accounts_from (ok : float -> Prop) (m : gmap Z Account.t) : Prop :=
  forall i X, m !! i = Some X -> account_from ok i X.

(** The keys of the account map are the ids handed out so far. *)
Definition ids_ok (b : Bank.t) : Prop :=
  1 <= Bank.next b /\
  forall i, is_Some (Bank.a b !! i) -> 1 <= i < Bank.next b.

(** ** What a call appends to the global log *)

(** The entries a call other than [undo] appends to the global log of [b]:
    none when it throws. *)
Definition appended (b : Bank.t) (c : call) (new : list Tx.t) : Prop :=
  match c with
  | CreateChecking _ init =>
      new = if (0 <? init)%float
            then [Tx.mk (Bank.next b) Deposit init "initial"] else []
  | CallDeposit id v note =>
      new = [] \/ ((v <=? 0)%float = false /\ new = [Tx.mk id Deposit v note])
  | CallWithdraw id v note =>
      new = [] \/ ((v <=? 0)%float = false /\ new = [Tx.mk id Withdraw v note])
  | CallTransfer from to v note =>
      new = [] \/
      ((v <=? 0)%float = false /\ from <> to /\
       new = [Tx.mk from TransferOut v ("to " +:+ pretty to);
              Tx.mk to TransferIn v ("from " +:+ pretty from)])
  | CallUndo _ => new = []
  end.

(** A call whose amount, if it has one, is a number: [v == v], which only
    NaN fails. *)
Definition call_is_number (c : call) : Prop :=
  match c with
  | CallDeposit _ v _ | CallWithdraw _ v _ | CallTransfer _ _ v _ =>
      (v =? v)%float = true
  | _ => True
  end.

(** Kinds that increased a balance when they were recorded. *)
Definition increases (k : TxType) : bool :=
  match k with
  | Deposit | TransferIn => true
  | Withdraw | TransferOut => false
  end.

(** A global log made of whole operations: single [Deposit] and [Withdraw]
    entries, and matched transfer pairs between two different accounts. *)
Inductive whole_operations : list Tx.t -> Prop :=
| whole_nil : whole_operations []
| whole_single l x :
    whole_operations l -> Tx.type x = Deposit \/ Tx.type x = Withdraw ->
    whole_operations (l ++ [x])
| whole_transfer l prev lastTx :
    whole_operations l -> transfer_pair prev lastTx ->
    Tx.acc prev <> Tx.acc lastTx ->
    whole_operations (l ++ [prev; lastTx]).

Definition is_create (c : call) : bool :=
  match c with CreateChecking _ _ => true | _ => false end.

(** The label [Account::print] shows for the kind of an entry. *)
Definition typ (k : TxType) : string :=
  match k with
  | Deposit => "Dep +"
  | Withdraw => "Wdr -"
  | TransferIn => "TIn +"
  | TransferOut => "TOut -"
  end.

(** A log entry is backed by the history of its account: the history holds
    an entry of the same amount, a [Deposit] when the logged kind increased
    the balance and a [Withdraw] when it decreased it. *)
Definition backed (m : gmap Z Account.t) (x : Tx.t) : Prop :=
  exists X y,
    m !! Tx.acc x = Some X /\ y ∈ Account.hist X /\
    Tx.amt y = Tx.amt x /\
    Tx.type y = if increases (Tx.type x) then Deposit else Withdraw.

(** ** The menu loop of [main]

    [main] reads a command number and the command's arguments from [cin]
    and writes to [cout].  An [entry] is one command as read, for input that
    parses; the end of the list is the end of input ([cin >> cmd] fails and
    the loop breaks).  What [Bank::list] and [Account::print] write (numbers
    with two decimals, local time through [strftime]) is kept as the data
    they print. *)

Definition endl : string := String (Ascii.ascii_of_nat 10) EmptyString.
Definition tab : string := String (Ascii.ascii_of_nat 9) EmptyString.

Inductive entry :=
| MCreate (name : string) (init : float)   (* 1 *)
| MDeposit (id : Z) (v : float)            (* 2 *)
| MWithdraw (id : Z) (v : float)           (* 3 *)
| MTransfer (a b : Z) (v : float)          (* 4 *)
| MList                                    (* 5 *)
| MPrint (id : Z)                          (* 6 *)
| MUndo                                    (* 7 *)
| MExit                                    (* 0 *)
| MOther (cmd : Z).                        (* any other number *)

Inductive out :=
| Say (text : string)
| Listing (m : gmap Z Account.t)   (* the lines of [Bank::list], one per account *)
| Statement (X : Account.t).       (* the text of [Account::print] *)

(** The menu, written at the start of every iteration. *)
Definition menu : string :=
  endl +:+ "Menu:" +:+ endl
  +:+ tab +:+ "1 Create checking" +:+ endl
  +:+ tab +:+ "2 Deposit" +:+ endl
  +:+ tab +:+ "3 Withdraw" +:+ endl
  +:+ tab +:+ "4 Transfer" +:+ endl
  +:+ tab +:+ "5 List accounts" +:+ endl
  +:+ tab +:+ "6 Print account" +:+ endl
  +:+ tab +:+ "7 Undo last" +:+ endl
  +:+ tab +:+ "0 Exit" +:+ endl
  +:+ "Choose: ".

(** The prompts a command writes while it reads its arguments. *)
Definition prompts (e : entry) : list out :=
  match e with
  | MCreate _ _ => [Say "Owner: "; Say "Initial: "]
  | MDeposit _ _ | MWithdraw _ _ => [Say "acc id, amount: "]
  | MTransfer _ _ _ => [Say "from to amount: "]
  | MPrint _ => [Say "acc id: "]
  | _ => []
  end.

(** The rest of the [try] block: the call on the bank and what is written
    after it. *)
Definition serve (e : entry) : Bank.M (list out) :=
  match e with
  | MCreate name init =>
      Bank.bind (Bank.createChecking name init) (fun id =>
        Bank.ret [Say ("Created checking id=" +:+ pretty id +:+ endl)])
  | MDeposit id v =>
      Bank.bind (Bank.deposit id v "manual") (fun _ =>
        Bank.ret [Say ("OK" +:+ endl)])
  | MWithdraw id v =>
      Bank.bind (Bank.withdraw id v "manual") (fun _ =>
        Bank.ret [Say ("OK" +:+ endl)])
  | MTransfer a b v =>
      Bank.bind (Bank.transfer a b v "manual") (fun _ =>
        Bank.ret [Say ("OK" +:+ endl)])
  | MList => fun b => (inr [Say ("Accounts:" +:+ endl); Listing (Bank.a b)], b)
  | MPrint id => Bank.bind (Bank.acc id) (fun X => Bank.ret [Statement X])
  | MUndo => fun b =>
      match Bank.undo "" b with
      | ((true, _), b') => (inr [Say ("Undo ok" +:+ endl)], b')
      | ((false, err), b') => (inr [Say ("Undo failed: " +:+ err +:+ endl)], b')
      end
  | MExit => Bank.ret [Say ("Bye" +:+ endl)]
  | MOther _ => Bank.ret [Say ("Unknown" +:+ endl)]
  end.

(** One pass through the loop body after the command number is read: the
    [try] block, and the [catch] that writes the exception's message. *)
Definition iteration (b : Bank.t) (e : entry) : list out * Bank.t :=
  match serve e b with
  | (inr os, b') => (prompts e ++ os, b')
  | (inl ex, b') => (prompts e ++ [Say ("Error: " +:+ what ex +:+ endl)], b')
  end.

(** The [while (true)] loop: it ends at the end of input or after [Exit]. *)
Fixpoint loop (b : Bank.t) (es : list entry) : list out * Bank.t :=
  match es with
  | [] => ([Say menu], b)
  | MExit :: _ => (Say menu :: fst (iteration b MExit), b)
  | e :: es' =>
      let '(os, b') := iteration b e in
      let '(os', b'') := loop b' es' in
      (Say menu :: os ++ os', b'')
  end.

(** [main]: everything written, and the bank when the loop has ended. *)
Definition main (es : list entry) : list out * Bank.t :=
  let '(os, b) := loop Bank.init es in
  (Say ("Mini bank (no overdraft) interactive" +:+ endl) :: os, b).

(** The calls on the bank that the commands make. *)
Definition entry_call (e : entry) : list call :=
  match e with
  | MCreate name init => [CreateChecking name init]
  | MDeposit id v => [CallDeposit id v "manual"]
  | MWithdraw id v => [CallWithdraw id v "manual"]
  | MTransfer a b v => [CallTransfer a b v "manual"]
  | MUndo => [CallUndo ""]
  | MList | MPrint _ | MExit | MOther _ => []
  end.

Fixpoint menu_calls (es : list entry) : list call :=
  match es with
  | [] => []
  | MExit :: _ => []
  | e :: es' => entry_call e ++ menu_calls es'
  end.

(** The [double]s that the literals 0.1 and 0.2 denote (the nearest binary64
    numbers). *)
Definition one_tenth : float := 0x1.999999999999ap-4%float.
Definition two_tenths : float := 0x1.999999999999ap-3%float.

(** * Properties *)

(** ** Order facts of binary64 used by the bank's guards *)

Section FloatOrder.
Local Open Scope float_scope.

Lemma SFcompare_antisym (x y : SpecFloat.spec_float) :
  SpecFloat.SFcompare y x = option_map CompOpp (SpecFloat.SFcompare x y).
Proof.
  destruct x as [sx|sx| |sx mx ex], y as [sy|sy| |sy my ey]; simpl;
    try reflexivity;
    try (destruct sx; reflexivity); try (destruct sy; reflexivity);
    try (destruct sx, sy; reflexivity).
  assert (Hm : Pos.compare_cont Eq my mx = CompOpp (Pos.compare_cont Eq mx my))
    by (symmetry; apply (Pos.compare_cont_antisym mx my Eq)).
  destruct sx, sy; simpl; try reflexivity;
    rewrite (Z.compare_antisym ex ey), Hm;
    destruct (ex ?= ey)%Z; simpl; try reflexivity;
    rewrite CompOpp_involutive; reflexivity.
Qed.

(** [x < y] excludes [y <= x]. *)
Lemma ltb_leb_false (x y : float) : (x <? y) = true -> (y <=? x) = false.
Proof.
  rewrite FloatAxioms.ltb_spec, FloatAxioms.leb_spec.
  unfold SpecFloat.SFltb, SpecFloat.SFleb.
  rewrite (SFcompare_antisym (Prim2SF x) (Prim2SF y)).
  destruct (SpecFloat.SFcompare (Prim2SF x) (Prim2SF y)) as [[]|];
    simpl; congruence.
Qed.

(** [x <= y] excludes [y < x]. *)
Lemma leb_ltb_false (x y : float) : (x <=? y) = true -> (y <? x) = false.
Proof.
  rewrite FloatAxioms.ltb_spec, FloatAxioms.leb_spec.
  unfold SpecFloat.SFltb, SpecFloat.SFleb.
  rewrite (SFcompare_antisym (Prim2SF x) (Prim2SF y)).
  destruct (SpecFloat.SFcompare (Prim2SF x) (Prim2SF y)) as [[]|];
    simpl; congruence.
Qed.

(** [x < y] gives [x <= y]. *)
Lemma ltb_leb (x y : float) : (x <? y) = true -> (x <=? y) = true.
Proof.
  rewrite FloatAxioms.ltb_spec, FloatAxioms.leb_spec.
  unfold SpecFloat.SFltb, SpecFloat.SFleb.
  destruct (SpecFloat.SFcompare (Prim2SF x) (Prim2SF y)) as [[]|]; congruence.
Qed.

Lemma SFcompare_refl (x : SpecFloat.spec_float) :
  x <> SpecFloat.S754_nan -> SpecFloat.SFcompare x x = Some Eq.
Proof.
  destruct x as [s|s| |s m e]; simpl; try congruence; intros _.
  - destruct s; reflexivity.
  - rewrite Z.compare_refl, Pos.compare_cont_refl. destruct s; reflexivity.
Qed.

(** A number that compares above another is not NaN, so [==] itself. *)
Lemma ltb_eqb_refl (x y : float) : (x <? y) = true -> (y =? y) = true.
Proof.
  rewrite FloatAxioms.ltb_spec, FloatAxioms.eqb_spec.
  unfold SpecFloat.SFltb, SpecFloat.SFeqb.
  intros H. rewrite SFcompare_refl; [reflexivity|].
  intros E. rewrite E in H. destruct (Prim2SF x); discriminate.
Qed.
End FloatOrder.

(** ** Signs of binary64 sums and differences *)

Section FloatSign.

Lemma digits2_pos_bounds (m : positive) :
  2 ^ (Zpos (SpecFloat.digits2_pos m) - 1) <= Zpos m
  < 2 ^ Zpos (SpecFloat.digits2_pos m).
Proof.
  induction m as [p IH|p IH|]; simpl SpecFloat.digits2_pos.
  - rewrite Pos2Z.inj_succ.
    replace (Z.succ (Zpos (SpecFloat.digits2_pos p)) - 1)
      with (Z.succ (Zpos (SpecFloat.digits2_pos p) - 1)) by lia.
    rewrite !Z.pow_succ_r by lia. lia.
  - rewrite Pos2Z.inj_succ.
    replace (Z.succ (Zpos (SpecFloat.digits2_pos p)) - 1)
      with (Z.succ (Zpos (SpecFloat.digits2_pos p) - 1)) by lia.
    rewrite !Z.pow_succ_r by lia. lia.
  - simpl. lia.
Qed.

Lemma iter_xO_spec (m d : positive) :
  Zpos (Pos.iter xO m d) = Zpos m * 2 ^ Zpos d.
Proof.
  induction d as [|d IH] using Pos.peano_ind.
  - simpl. lia.
  - rewrite Pos.iter_succ, Pos2Z.inj_succ, Z.pow_succ_r by lia.
    rewrite Pos2Z.inj_xO, IH. lia.
Qed.

(** Rounding keeps the sign it is given. *)
Lemma binary_round_sign s m e :
  match SpecFloat.binary_round prec emax s m e with
  | SpecFloat.S754_zero s' | SpecFloat.S754_infinity s'
  | SpecFloat.S754_finite s' _ _ => s' = s
  | SpecFloat.S754_nan => True
  end.
Proof.
  unfold SpecFloat.binary_round, SpecFloat.binary_round_aux.
  destruct (SpecFloat.shl_align _ _ _) as [mz ez].
  destruct (SpecFloat.shr_fexp prec emax (Zpos mz) ez SpecFloat.loc_Exact)
    as [mrs' e'].
  destruct (SpecFloat.shr_fexp prec emax _ e' SpecFloat.loc_Exact) as [mrs'' e''].
  destruct (SpecFloat.shr_m mrs''); try done.
  destruct (e'' <=? emax - prec); done.
Qed.

Lemma binary_normalize_nonneg m e :
  (0 <= m)%Z ->
  SpecFloat.SFltb (SpecFloat.binary_normalize prec emax m e false)
                  (SpecFloat.S754_zero false) = false.
Proof.
  intros Hm. destruct m as [|p|p]; [reflexivity| |lia].
  simpl. pose proof (binary_round_sign false p e) as H.
  destruct (SpecFloat.binary_round prec emax false p e) as [s|s| |s m' e'];
    try subst s; reflexivity.
Qed.

Lemma SFadd_nonneg (x y : SpecFloat.spec_float) :
  SpecFloat.SFltb x (SpecFloat.S754_zero false) = false ->
  SpecFloat.SFleb y (SpecFloat.S754_zero false) = false ->
  SpecFloat.SFltb (SF64add x y) (SpecFloat.S754_zero false) = false.
Proof.
  destruct x as [[]|[]| |[] mx ex], y as [[]|[]| |[] my ey];
    try discriminate; try reflexivity.
  intros _ _. apply binary_normalize_nonneg. simpl. lia.
Qed.

Lemma SFsub_nonneg (x y : SpecFloat.spec_float) :
  SpecFloat.valid_binary prec emax x = true ->
  SpecFloat.valid_binary prec emax y = true ->
  SpecFloat.SFleb y (SpecFloat.S754_zero false) = false ->
  SpecFloat.SFltb x y = false ->
  SpecFloat.SFltb (SF64sub x y) (SpecFloat.S754_zero false) = false.
Proof.
  destruct x as [[]|[]| |[] mx ex], y as [[]|[]| |[] my ey];
    try discriminate; try reflexivity.
  intros Vx Vy _ Hlt. apply binary_normalize_nonneg.
  simpl in Vx, Vy.
  unfold SpecFloat.bounded, SpecFloat.canonical_mantissa, SpecFloat.fexp in Vx, Vy.
  apply andb_true_iff in Vx as [Vx _]. apply andb_true_iff in Vy as [Vy _].
  apply Z.eqb_eq in Vx, Vy.
  pose proof (digits2_pos_bounds mx) as Hdx.
  pose proof (digits2_pos_bounds my) as Hdy.
  unfold SpecFloat.SFltb in Hlt. simpl in Hlt.
  unfold SpecFloat.shl_align. simpl SpecFloat.cond_Zopp.
  destruct (Z.compare_spec ex ey) as [->|Hc|Hc]; try discriminate.
  - rewrite Z.min_id, Z.sub_diag. simpl.
    destruct (Pos.compare_cont Eq mx my) eqn:Hm; try discriminate.
    + apply Pos.compare_eq in Hm. subst. lia.
    + apply Pos.compare_gt_iff in Hm. lia.
  - rewrite Z.min_r by lia. rewrite Z.sub_diag.
    destruct (ey - ex)%Z as [|d|d] eqn:Hd; try lia. simpl fst.
    rewrite iter_xO_spec.
    assert (Hpx : Zpos (SpecFloat.digits2_pos mx) = prec)
      by (unfold SpecFloat.emin in *; lia).
    assert (Hpy : (Zpos (SpecFloat.digits2_pos my) <= prec)%Z) by lia.
    rewrite Hpx in Hdx.
    assert (Hmy : (Zpos my < 2 ^ prec)%Z).
    { eapply Z.lt_le_trans; [apply Hdy|]. apply Z.pow_le_mono_r; lia. }
    assert (H2 : (2 ^ 1 <= 2 ^ Zpos d)%Z) by (apply Z.pow_le_mono_r; lia).
    replace (2 ^ prec)%Z with (2 ^ (prec - 1) * 2 ^ 1)%Z in Hmy
      by (rewrite <- Z.pow_add_r by (unfold prec; lia); f_equal; lia).
    nia.
Qed.

(** [x + y] is not below zero when [x] is not and [y] passed [y <= 0]. *)
Lemma add_not_below_zero (x y : float) :
  (x <? 0)%float = false -> (y <=? 0)%float = false ->
  (x + y <? 0)%float = false.
Proof.
  rewrite !FloatAxioms.ltb_spec, FloatAxioms.leb_spec, FloatAxioms.add_spec.
  change (Prim2SF 0%float) with (SpecFloat.S754_zero false). apply SFadd_nonneg.
Qed.

(** [x - y] is not below zero when [y] passed [y <= 0] and [x] passed
    [x < y]. *)
Lemma sub_not_below_zero (x y : float) :
  (y <=? 0)%float = false -> (x <? y)%float = false ->
  (x - y <? 0)%float = false.
Proof.
  rewrite !FloatAxioms.ltb_spec, FloatAxioms.leb_spec, FloatAxioms.sub_spec.
  change (Prim2SF 0%float) with (SpecFloat.S754_zero false).
  apply SFsub_nonneg; apply Prim2SF_valid.
Qed.

Lemma add_zero_l (x : float) : (0 <? x)%float = true -> (0 + x)%float = x.
Proof.
  rewrite FloatAxioms.ltb_spec. intros H. apply Prim2SF_inj.
  rewrite FloatAxioms.add_spec.
  change (Prim2SF 0%float) with (SpecFloat.S754_zero false) in *.
  destruct (Prim2SF x) as [[]|[]| |[] m e]; try discriminate; reflexivity.
Qed.
End FloatSign.

(** ** The account's two mutators *)

Lemma deposit_inr v note s s' :
  Account.deposit v note s = inr s' ->
  (v <=? 0)%float = false /\
  s' = {| Account.id := Account.id s; Account.owner := Account.owner s;
          Account.bal := (Account.bal s + v)%float;
          Account.hist := Account.hist s ++ [Tx.mk (Account.id s) Deposit v note] |}.
Proof.
  unfold Account.deposit. destruct (v <=? 0)%float; [discriminate|].
  intros [= <-]. split; reflexivity.
Qed.

Lemma withdraw_inr v note s s' :
  Account.withdraw v note s = inr s' ->
  (v <=? 0)%float = false /\ (Account.bal s <? v)%float = false /\
  s' = {| Account.id := Account.id s; Account.owner := Account.owner s;
          Account.bal := (Account.bal s - v)%float;
          Account.hist := Account.hist s ++ [Tx.mk (Account.id s) Withdraw v note] |}.
Proof.
  unfold Account.withdraw. destruct (v <=? 0)%float; [discriminate|].
  destruct (Account.bal s <? v)%float; [discriminate|].
  intros [= <-]. repeat split; reflexivity.
Qed.

(** ** One account call through the bank *)

Lemma on_accP id f b : on_acc_spec id f b (Bank.on_acc id f b).
Proof.
  unfold Bank.on_acc, Bank.bind, Bank.acc, Bank.throw.
  destruct (Bank.a b !! id) as [s|] eqn:Hs; [|by constructor].
  destruct (f s) as [e|s'] eqn:Hf; econstructor; eauto.
Qed.

(** ** Transfer *)

(** What a transfer that returns normally has done. *)
Lemma transfer_inr from to v note b b' :
  Bank.transfer from to v note b = (inr tt, b') ->
  from <> to /\
  exists A A' B B',
    Bank.a b !! from = Some A /\
    Account.withdraw v ("to " +:+ pretty to +:+ Bank.note_suffix note) A = inr A' /\
    Bank.a b !! to = Some B /\
    Account.deposit v ("from " +:+ pretty from +:+ Bank.note_suffix note) B = inr B' /\
    b' = {| Bank.a := <[to := B']> (<[from := A']> (Bank.a b));
            Bank.log := Bank.log b ++ [Tx.mk from TransferOut v ("to " +:+ pretty to);
                                       Tx.mk to TransferIn v ("from " +:+ pretty from)];
            Bank.next := Bank.next b |}.
Proof.
  unfold Bank.transfer. destruct (decide (from = to)) as [|Hne]; [discriminate|].
  unfold Bank.bind.
  destruct (on_accP from (Account.withdraw v ("to " +:+ pretty to +:+ Bank.note_suffix note)) b)
    as [|A e HA He|A A' HA HA']; try discriminate.
  destruct (on_accP to (Account.deposit v ("from " +:+ pretty from +:+ Bank.note_suffix note))
              (Bank.set_acc from A' b)) as [|B e HB He|B B' HB HB']; try discriminate.
  simpl in HB. rewrite lookup_insert_ne in HB by done.
  unfold Bank.emplace_back. simpl. intros [= <-].
  split; [done|]. exists A, A', B, B'. by rewrite <- app_assoc.
Qed.

(** What a transfer that throws leaves behind: nothing, unless the
    destination is missing, in which case the withdrawal stays applied. *)
Lemma transfer_inl from to v note b e b' :
  Bank.transfer from to v note b = (inl e, b') ->
  b' = b \/
  (from <> to /\ Bank.a b !! to = None /\ e = NotFound "no account" /\
   exists A A',
     Bank.a b !! from = Some A /\
     Account.withdraw v ("to " +:+ pretty to +:+ Bank.note_suffix note) A = inr A' /\
     b' = Bank.set_acc from A' b).
Proof.
  unfold Bank.transfer. destruct (decide (from = to)) as [|Hne].
  { intros [= _ <-]. by left. }
  unfold Bank.bind.
  destruct (on_accP from (Account.withdraw v ("to " +:+ pretty to +:+ Bank.note_suffix note)) b)
    as [|A e' HA He|A A' HA HA'].
  - intros [= _ <-]. by left.
  - intros [= _ <-]. by left.
  - destruct (on_accP to (Account.deposit v ("from " +:+ pretty from +:+ Bank.note_suffix note))
                (Bank.set_acc from A' b)) as [HB|B e' HB He|B B' HB HB'].
    + intros [= <- <-]. right. simpl in HB. rewrite lookup_insert_ne in HB by done.
      repeat split; try done. by exists A, A'.
    + apply withdraw_inr in HA' as (Hv & _).
      unfold Account.deposit in He. rewrite Hv in He. discriminate.
    + unfold Bank.emplace_back. simpl. discriminate.
Qed.

(** X9. A transfer whose two ids are equal, whose source is missing, whose
    amount is [<= 0], or whose source holds less than the amount, throws and
    leaves the bank unchanged. *)
Theorem transfer_rejected_unchanged from to v note b :
  from = to \/ Bank.a b !! from = None \/ (v <=? 0)%float = true \/
  (exists A, Bank.a b !! from = Some A /\ (Account.bal A <? v)%float = true) ->
  exists e, Bank.transfer from to v note b = (inl e, b).
Proof.
  unfold Bank.transfer. intros H.
  destruct (decide (from = to)) as [|Hne]; [by eexists|].
  unfold Bank.bind, Bank.on_acc, Bank.bind, Bank.acc, Bank.throw.
  destruct H as [?|[->|[Hv|(A & -> & Hlt)]]]; [done|by eexists|..].
  - destruct (Bank.a b !! from); [|by eexists].
    unfold Account.withdraw. rewrite Hv. by eexists.
  - unfold Account.withdraw. rewrite Hlt.
    destruct (v <=? 0)%float; by eexists.
Qed.

Lemma transfer_rejected_unchanged_witness :
  let b := run [CreateChecking "Alice" 50; CreateChecking "Bob" 0] in
  exists e, Bank.transfer 1 2 80 "manual" b = (inl e, b).
Proof.
  intros b. apply (transfer_rejected_unchanged 1 2 80 "manual" b).
  right. right. right.
  exists (Account.mk 1 "Alice" 50 [Tx.mk 1 Deposit 50 "initial"]).
  split; vm_compute; reflexivity.
Defined.

(** C4 (amended). A transfer of [v] from account [from] (holding [A]) to a
    different account [to] (holding [B]), with [0 < v <= A]'s balance, returns
    normally; afterwards [from]'s balance is [A]'s minus [v] and [to]'s
    balance is [B]'s plus [v], both as [double] subtraction and addition
    compute them (a decrease and an increase by [v] only when those two
    roundings are exact), no other account changes, and the global log is the
    old one followed by exactly [TransferOut(from, v)] and then
    [TransferIn(to, v)]. *)
Theorem transfer_moves_amount_and_logs_pair from to v note b A B :
  from <> to ->
  Bank.a b !! from = Some A ->
  Bank.a b !! to = Some B ->
  (0 <? v)%float = true ->
  (v <=? Account.bal A)%float = true ->
  exists b',
    Bank.transfer from to v note b = (inr tt, b') /\
    Account.bal <$> Bank.a b' !! from = Some (Account.bal A - v)%float /\
    Account.bal <$> Bank.a b' !! to = Some (Account.bal B + v)%float /\
    (forall i, i <> from -> i <> to -> Bank.a b' !! i = Bank.a b !! i) /\
    Bank.log b' = Bank.log b ++ [Tx.mk from TransferOut v ("to " +:+ pretty to);
                                 Tx.mk to TransferIn v ("from " +:+ pretty from)].
Proof.
  intros Hne HA HB Hpos Hle.
  apply ltb_leb_false in Hpos. apply leb_ltb_false in Hle.
  unfold Bank.transfer. destruct (decide (from = to)); [done|].
  unfold Bank.bind, Bank.on_acc, Bank.bind, Bank.acc.
  rewrite HA. unfold Account.withdraw. rewrite Hpos, Hle. simpl.
  rewrite lookup_insert_ne, HB by done.
  unfold Account.deposit. rewrite Hpos. simpl.
  eexists. split; [reflexivity|]. simpl. repeat split.
  - by rewrite lookup_insert_ne, lookup_insert_eq.
  - by rewrite lookup_insert_eq.
  - intros i Hf Hto. by rewrite !lookup_insert_ne.
  - by rewrite <- app_assoc.
Qed.

Lemma transfer_moves_amount_and_logs_pair_witness :
  let b := run [CreateChecking "Alice" 100; CreateChecking "Bob" 0] in
  exists b',
    Bank.transfer 1 2 40 "manual" b = (inr tt, b') /\
    Account.bal <$> Bank.a b' !! 1 = Some 60%float /\
    Account.bal <$> Bank.a b' !! 2 = Some 40%float /\
    Bank.log b' = Bank.log b ++ [Tx.mk 1 TransferOut 40 "to 2";
                                 Tx.mk 2 TransferIn 40 "from 1"].
Proof.
  intros b.
  destruct (transfer_moves_amount_and_logs_pair 1 2 40 "manual" b
              (Account.mk 1 "Alice" 100 [Tx.mk 1 Deposit 100 "initial"])
              (Account.mk 2 "Bob" 0 []))
    as (b' & Ht & HA & HB & _ & Hlog); try (vm_compute; congruence).
  exists b'. repeat split; assumption.
Defined.

(** C4, as stated, fails: a transfer of 1 between two accounts that hold
    1e16 each returns normally and logs its pair, and both balances are what
    they were, since 1e16 - 1 and 1e16 + 1 both round to 1e16. *)
Lemma transfer_of_one_moves_nothing_at_1e16 :
  let b0 := run [CreateChecking "Alice" 1e16; CreateChecking "Bob" 1e16] in
  let t := Bank.transfer 1 2 1 "manual" b0 in
  (0 <? 1)%float = true /\ (1 <=? 1e16)%float = true /\
  fst t = inr tt /\
  Account.bal <$> Bank.a b0 !! 1 = Some 1e16%float /\
  Account.bal <$> Bank.a b0 !! 2 = Some 1e16%float /\
  Account.bal <$> Bank.a (snd t) !! 1 = Some 1e16%float /\
  Account.bal <$> Bank.a (snd t) !! 2 = Some 1e16%float /\
  Bank.log (snd t) = Bank.log b0 ++ [Tx.mk 1 TransferOut 1 "to 2";
                                     Tx.mk 2 TransferIn 1 "from 1"].
Proof. vm_compute. repeat split; reflexivity. Qed.

(** ** Undo: which branch runs *)

Lemma undo_empty err b :
  Bank.log b = [] -> Bank.undo err b = ((false, "nothing to undo"), b).
Proof. unfold Bank.undo. by intros ->. Qed.

(** C10. [undo] on a bank whose global log is empty returns false with the
    message "nothing to undo", and the bank (account map with every balance
    and history, global log, id counter) is the one it was called on. *)
Theorem undo_empty_log_nothing_to_undo err b :
  Bank.log b = [] -> Bank.undo err b = ((false, "nothing to undo"), b).
Proof. apply undo_empty. Qed.

Lemma undo_empty_log_nothing_to_undo_witness :
  Bank.undo "" Bank.init = ((false, "nothing to undo"), Bank.init).
Proof. apply (undo_empty_log_nothing_to_undo "" Bank.init). reflexivity. Defined.

Section Tail.
Context {A : Type}.
Implicit Types (l : list A) (x y : A).

Lemma tail_last l x y : last (l ++ [x; y]) = Some y.
Proof. change [x; y] with ([x] ++ [y]). by rewrite app_assoc, last_snoc. Qed.

Lemma tail_length l x y : (2 <=? length (l ++ [x; y]))%nat = true.
Proof. apply Nat.leb_le. rewrite length_app. simpl. lia. Qed.

Lemma tail_penultimate l x y :
  (l ++ [x; y]) !! (length (l ++ [x; y]) - 2)%nat = Some x.
Proof.
  rewrite length_app. simpl length.
  replace (length l + 2 - 2)%nat with (length l + 0)%nat by lia.
  by rewrite lookup_app_r, Nat.add_0_r, Nat.sub_diag by lia.
Qed.

Lemma tail_removelast l x y : removelast (removelast (l ++ [x; y])) = l.
Proof.
  change [x; y] with ([x] ++ [y]). by rewrite app_assoc, !removelast_last.
Qed.

Lemma tail_inj l l' x y x' y' :
  l ++ [x; y] = l' ++ [x'; y'] -> l = l' /\ x = x' /\ y = y'.
Proof.
  change [x; y] with ([x] ++ [y]). change [x'; y'] with ([x'] ++ [y']).
  rewrite !app_assoc. intros H.
  apply app_inj_tail in H as [H ->]. by apply app_inj_tail in H as [-> ->].
Qed.
End Tail.

Lemma undo_pair_branch err b l prev lastTx :
  Bank.log b = l ++ [prev; lastTx] -> transfer_pair prev lastTx ->
  Bank.undo err b = Bank.try_catch (Bank.undo_pair prev lastTx) err b.
Proof.
  intros Hl (Hp & Hlast & Heq). unfold Bank.undo. rewrite Hl.
  rewrite tail_last, tail_length, tail_penultimate.
  rewrite !bool_decide_eq_true_2 by done. by rewrite Heq.
Qed.

Lemma undo_single_branch err b l lastTx :
  Bank.log b = l ++ [lastTx] -> ~ pair_at_tail (Bank.log b) ->
  Bank.undo err b = Bank.try_catch (Bank.undo_single lastTx) err b.
Proof.
  intros Hl Hnp. unfold Bank.undo. rewrite Hl in *. rewrite last_snoc.
  destruct (bool_decide (Tx.type lastTx = TransferIn)
            && (2 <=? length (l ++ [lastTx]))%nat) eqn:Hc; [|done].
  destruct ((l ++ [lastTx]) !! (length (l ++ [lastTx]) - 2)%nat) as [prev|] eqn:Hprev;
    [|done].
  destruct (bool_decide (Tx.type prev = TransferOut)
            && (Tx.amt prev =? Tx.amt lastTx)%float) eqn:Hc2; [|done].
  exfalso. apply Hnp.
  apply andb_true_iff in Hc as [Hty Hlen]. apply bool_decide_eq_true_1 in Hty.
  apply andb_true_iff in Hc2 as [Hty2 Heq]. apply bool_decide_eq_true_1 in Hty2.
  apply Nat.leb_le in Hlen.
  destruct l as [|x l0 _] using rev_ind; [simpl in Hlen; lia|].
  rewrite <- app_assoc in Hprev. simpl app in Hprev.
  rewrite tail_penultimate in Hprev. injection Hprev as ->.
  exists l0, prev, lastTx. split; [by rewrite <- app_assoc|done].
Qed.

(** X10. After a transfer of an amount above zero that returned normally,
    the global log ends in a matched transfer pair (the transfer's own two
    entries), so the next [undo] takes the transfer-pair branch. *)
Theorem transfer_leaves_matched_pair from to v note b b' err :
  (0 <? v)%float = true ->
  Bank.transfer from to v note b = (inr tt, b') ->
  pair_at_tail (Bank.log b') /\
  Bank.undo err b'
  = Bank.try_catch
      (Bank.undo_pair (Tx.mk from TransferOut v ("to " +:+ pretty to))
                      (Tx.mk to TransferIn v ("from " +:+ pretty from))) err b'.
Proof.
  intros Hv Ht.
  apply transfer_inr in Ht as (_ & A & A' & B & B' & _ & _ & _ & _ & ->). simpl.
  assert (Hp : transfer_pair (Tx.mk from TransferOut v ("to " +:+ pretty to))
                             (Tx.mk to TransferIn v ("from " +:+ pretty from))).
  { repeat split. simpl. by apply (ltb_eqb_refl 0%float). }
  split; [by eexists _, _, _|].
  by eapply undo_pair_branch.
Qed.

Lemma transfer_leaves_matched_pair_witness :
  let b := run [CreateChecking "Alice" 100; CreateChecking "Bob" 0] in
  pair_at_tail (Bank.log (snd (Bank.transfer 1 2 40 "manual" b))).
Proof.
  intros b.
  apply (transfer_leaves_matched_pair 1 2 40 "manual" b
           (snd (Bank.transfer 1 2 40 "manual" b)) "");
    vm_compute; reflexivity.
Defined.

(** ** Undo: what each branch does *)

Lemma undo_single_reversal lastTx :
  Bank.undo_single lastTx
  = Bank.bind (Bank.on_acc (Tx.acc lastTx) (reversal lastTx)) (fun _ => Bank.pop_back).
Proof. unfold Bank.undo_single, reversal. by destruct (Tx.type lastTx). Qed.

Lemma undo_single_inr lastTx b b' :
  Bank.undo_single lastTx b = (inr tt, b') ->
  exists X X',
    Bank.a b !! Tx.acc lastTx = Some X /\ reversal lastTx X = inr X' /\
    b' = {| Bank.a := <[Tx.acc lastTx := X']> (Bank.a b);
            Bank.log := removelast (Bank.log b);
            Bank.next := Bank.next b |}.
Proof.
  rewrite undo_single_reversal. unfold Bank.bind.
  destruct (on_accP (Tx.acc lastTx) (reversal lastTx) b) as [|X e HX He|X X' HX HX'];
    try discriminate.
  unfold Bank.pop_back. simpl. intros [= <-]. by exists X, X'.
Qed.

Lemma undo_single_inl lastTx b e b' :
  Bank.undo_single lastTx b = (inl e, b') -> b' = b.
Proof.
  rewrite undo_single_reversal. unfold Bank.bind.
  destruct (on_accP (Tx.acc lastTx) (reversal lastTx) b); try congruence.
  unfold Bank.pop_back. discriminate.
Qed.

Lemma undo_pair_inr prev lastTx b b' :
  Bank.undo_pair prev lastTx b = (inr tt, b') ->
  exists T T' F F',
    Bank.a b !! Tx.acc lastTx = Some T /\
    Account.withdraw (Tx.amt lastTx) "undo transfer" T = inr T' /\
    <[Tx.acc lastTx := T']> (Bank.a b) !! Tx.acc prev = Some F /\
    Account.deposit (Tx.amt lastTx) "undo transfer" F = inr F' /\
    b' = {| Bank.a := <[Tx.acc prev := F']> (<[Tx.acc lastTx := T']> (Bank.a b));
            Bank.log := removelast (removelast (Bank.log b));
            Bank.next := Bank.next b |}.
Proof.
  unfold Bank.undo_pair, Bank.bind.
  destruct (on_accP (Tx.acc lastTx) (Account.withdraw (Tx.amt lastTx) "undo transfer") b)
    as [|T e HT He|T T' HT HT']; try discriminate.
  destruct (on_accP (Tx.acc prev) (Account.deposit (Tx.amt lastTx) "undo transfer")
              (Bank.set_acc (Tx.acc lastTx) T' b)) as [|F e HF He|F F' HF HF'];
    try discriminate.
  unfold Bank.pop_back. simpl. intros [= <-]. by exists T, T', F, F'.
Qed.

(** A failing pair reversal either changed nothing (the withdrawal leg
    threw) or kept the withdrawal because the [TransferOut] account is
    missing from the map. *)
Lemma undo_pair_inl prev lastTx b e b' :
  Bank.undo_pair prev lastTx b = (inl e, b') ->
  b' = b \/
  (Bank.a b !! Tx.acc prev = None /\
   exists T T',
     Bank.a b !! Tx.acc lastTx = Some T /\
     Account.withdraw (Tx.amt lastTx) "undo transfer" T = inr T' /\
     b' = Bank.set_acc (Tx.acc lastTx) T' b).
Proof.
  unfold Bank.undo_pair, Bank.bind.
  destruct (on_accP (Tx.acc lastTx) (Account.withdraw (Tx.amt lastTx) "undo transfer") b)
    as [|T e' HT He|T T' HT HT']; try (intros [= _ <-]; by left).
  destruct (on_accP (Tx.acc prev) (Account.deposit (Tx.amt lastTx) "undo transfer")
              (Bank.set_acc (Tx.acc lastTx) T' b)) as [HF|F e' HF He|F F' HF HF'].
  - intros [= _ <-]. right. simpl in HF.
    apply lookup_insert_None in HF as [HF _]. split; [done|by exists T, T'].
  - apply withdraw_inr in HT' as (Hv & _).
    unfold Account.deposit in He. rewrite Hv in He. discriminate.
  - unfold Bank.pop_back. discriminate.
Qed.

(** When the [TransferOut] account is in the map, a failing pair reversal
    failed in its withdrawal leg, before any mutation. *)
Lemma undo_pair_inl_withdrawal prev lastTx b e b' :
  Bank.undo_pair prev lastTx b = (inl e, b') ->
  is_Some (Bank.a b !! Tx.acc prev) ->
  Bank.on_acc (Tx.acc lastTx) (Account.withdraw (Tx.amt lastTx) "undo transfer") b
  = (inl e, b) /\ b' = b.
Proof.
  intros Hu HF. revert Hu. unfold Bank.undo_pair, Bank.bind.
  destruct (on_accP (Tx.acc lastTx) (Account.withdraw (Tx.amt lastTx) "undo transfer") b)
    as [|T e' HT He|T T' HT HT']; try (by intros [= <- <-]).
  destruct (on_accP (Tx.acc prev) (Account.deposit (Tx.amt lastTx) "undo transfer")
              (Bank.set_acc (Tx.acc lastTx) T' b)) as [HN|F e' HF' He|F F' HF' HF''].
  - simpl in HN. apply lookup_insert_None in HN as [HN _].
    rewrite HN in HF. by destruct HF.
  - apply withdraw_inr in HT' as (Hv & _).
    unfold Account.deposit in He. rewrite Hv in He. discriminate.
  - unfold Bank.pop_back. discriminate.
Qed.

(** ** Single-account calls through the bank *)

Lemma bank_deposit_inr id v note b b' :
  Bank.deposit id v note b = (inr tt, b') ->
  exists X X',
    Bank.a b !! id = Some X /\ Account.deposit v note X = inr X' /\
    b' = {| Bank.a := <[id := X']> (Bank.a b);
            Bank.log := Bank.log b ++ [Tx.mk id Deposit v note];
            Bank.next := Bank.next b |}.
Proof.
  unfold Bank.deposit, Bank.bind.
  destruct (on_accP id (Account.deposit v note) b) as [|X e HX He|X X' HX HX'];
    try discriminate.
  unfold Bank.emplace_back. simpl. intros [= <-]. by exists X, X'.
Qed.

Lemma bank_deposit_inl id v note b e b' :
  Bank.deposit id v note b = (inl e, b') -> b' = b.
Proof.
  unfold Bank.deposit, Bank.bind.
  destruct (on_accP id (Account.deposit v note) b); try congruence.
  unfold Bank.emplace_back. discriminate.
Qed.

Lemma bank_withdraw_inr id v note b b' :
  Bank.withdraw id v note b = (inr tt, b') ->
  exists X X',
    Bank.a b !! id = Some X /\ Account.withdraw v note X = inr X' /\
    b' = {| Bank.a := <[id := X']> (Bank.a b);
            Bank.log := Bank.log b ++ [Tx.mk id Withdraw v note];
            Bank.next := Bank.next b |}.
Proof.
  unfold Bank.withdraw, Bank.bind.
  destruct (on_accP id (Account.withdraw v note) b) as [|X e HX He|X X' HX HX'];
    try discriminate.
  unfold Bank.emplace_back. simpl. intros [= <-]. by exists X, X'.
Qed.

Lemma bank_withdraw_inl id v note b e b' :
  Bank.withdraw id v note b = (inl e, b') -> b' = b.
Proof.
  unfold Bank.withdraw, Bank.bind.
  destruct (on_accP id (Account.withdraw v note) b); try congruence.
  unfold Bank.emplace_back. discriminate.
Qed.

(** A successful [undo] comes from one of its two [try] blocks. *)
Lemma try_catch_true body err b r b' :
  Bank.try_catch body err b = ((true, r), b') -> body b = (inr tt, b') /\ r = err.
Proof.
  unfold Bank.try_catch. destruct (body b) as [[e|[]] b1]; [discriminate|].
  by intros [= <- <-].
Qed.

Lemma try_catch_false body err b r b' :
  Bank.try_catch body err b = ((false, r), b') ->
  exists e, body b = (inl e, b') /\ r = what e.
Proof.
  unfold Bank.try_catch. destruct (body b) as [[e|[]] b1]; [|discriminate].
  intros [= <- <-]. by exists e.
Qed.

(** ** Undo of a single entry *)

(** C7 (amended). When the global log ends in [lastTx] and its tail is not a
    matched transfer pair, a successful [undo] withdraws [lastTx]'s amount
    from its account if its kind is [Deposit] or [TransferIn] and deposits it
    if the kind is [Withdraw] or [TransferOut] (noted "undo"), and removes
    exactly that entry from the global log.  In particular a successful
    [undo] right after a deposit of [v] to account [id] removes the deposit's
    entry and leaves the account with [(x + v) - v], computed in [double]
    arithmetic from its balance [x] before the deposit; the other accounts
    are as before the deposit. *)
Theorem undo_reverses_last_entry err b l lastTx r b' :
  Bank.log b = l ++ [lastTx] ->
  ~ pair_at_tail (Bank.log b) ->
  Bank.undo err b = ((true, r), b') ->
  (exists X X',
     Bank.a b !! Tx.acc lastTx = Some X /\
     reversal lastTx X = inr X' /\
     b' = {| Bank.a := <[Tx.acc lastTx := X']> (Bank.a b);
             Bank.log := l;
             Bank.next := Bank.next b |}) /\
  (forall b0 id v note,
     Bank.deposit id v note b0 = (inr tt, b) ->
     exists X0,
       Bank.a b0 !! id = Some X0 /\
       Account.bal <$> Bank.a b' !! id = Some (Account.bal X0 + v - v)%float /\
       (forall i, i <> id -> Bank.a b' !! i = Bank.a b0 !! i) /\
       Bank.log b' = Bank.log b0).
Proof.
  intros Hl Hnp Hu.
  rewrite (undo_single_branch err b l lastTx Hl Hnp) in Hu.
  apply try_catch_true in Hu as [Hu ->].
  apply undo_single_inr in Hu as (X & X' & HX & HX' & ->).
  rewrite Hl, removelast_last. split; [by exists X, X'|].
  intros b0 id v note Hd.
  apply bank_deposit_inr in Hd as (X0 & X1 & HX0 & HX1 & ->).
  simpl in Hl, HX. apply app_inj_tail in Hl as [<- <-]. simpl in *.
  rewrite lookup_insert_eq in HX. injection HX as <-.
  apply deposit_inr in HX1 as [_ ->].
  unfold reversal in HX'. simpl in HX'.
  apply withdraw_inr in HX' as (_ & _ & ->).
  exists X0. repeat split; try done.
  - by rewrite lookup_insert_eq.
  - intros i Hi. by rewrite !lookup_insert_ne.
Qed.

Lemma undo_reverses_last_entry_witness :
  let b0 := run [CreateChecking "Alice" 100] in
  let b := snd (Bank.deposit 1 40 "manual" b0) in
  let b' := snd (Bank.undo "" b) in
  Account.bal <$> Bank.a b' !! 1 = Some (100 + 40 - 40)%float /\
  Bank.log b' = Bank.log b0.
Proof.
  intros b0 b b'.
  destruct (undo_reverses_last_entry "" b (Bank.log b0) (Tx.mk 1 Deposit 40 "manual") "" b')
    as [_ H]; try (vm_compute; reflexivity).
  { intros (l' & prev & lastTx & Hl & _ & Hty & _).
    change (Bank.log b) with (Bank.log b0 ++ [Tx.mk 1 Deposit 40 "manual"]) in Hl.
    change (l' ++ [prev; lastTx]) with (l' ++ [prev] ++ [lastTx]) in Hl.
    rewrite app_assoc in Hl. apply app_inj_tail in Hl as [_ <-]. discriminate. }
  destruct (H b0 1 40%float "manual") as (X0 & HX0 & Hbal & _ & Hlog);
    [vm_compute; reflexivity|].
  split; [|exact Hlog].
  assert (X0 = Account.mk 1 "Alice" 100 [Tx.mk 1 Deposit 100 "initial"]) as ->
    by (vm_compute in HX0; congruence).
  exact Hbal.
Defined.

(** C7, as stated, fails: an account holding 0.1 that receives a deposit of
    0.2, undone at once, holds 0.10000000000000003. *)
Lemma undo_after_deposit_balance_not_restored :
  let b0 := run [CreateChecking "Alice" one_tenth] in
  let d := Bank.deposit 1 two_tenths "manual" b0 in
  let u := Bank.undo "" (snd d) in
  fst d = inr tt /\ fst u = (true, "") /\
  Bank.log (snd u) = Bank.log b0 /\
  Account.bal <$> Bank.a b0 !! 1 = Some one_tenth /\
  Account.bal <$> Bank.a (snd u) !! 1 = Some 0x1.999999999999cp-4%float /\
  (0x1.999999999999cp-4 =? one_tenth)%float = false.
Proof. vm_compute. repeat split; reflexivity. Qed.

(** ** Undo of a transfer pair *)

(** C5 (amended). When the global log ends in a matched transfer pair
    [prev] ([TransferOut]), [lastTx] ([TransferIn]) with equal amounts, a
    successful [undo] withdraws the amount from [lastTx]'s account, then
    deposits it to [prev]'s account (both noted "undo transfer"), and removes
    exactly those two entries from the global log.  In particular a
    successful [undo] right after a transfer of [v] from [from] to [to]
    removes the transfer's two entries and leaves [from] with [(x - v) + v]
    and [to] with [(y + v) - v], computed in [double] arithmetic from their
    balances [x] and [y] before the transfer; the other accounts are as
    before the transfer. *)
Theorem undo_reverses_transfer_pair err b l prev lastTx r b' :
  Bank.log b = l ++ [prev; lastTx] ->
  transfer_pair prev lastTx ->
  Bank.undo err b = ((true, r), b') ->
  (exists T T' F F',
     Bank.a b !! Tx.acc lastTx = Some T /\
     Account.withdraw (Tx.amt lastTx) "undo transfer" T = inr T' /\
     <[Tx.acc lastTx := T']> (Bank.a b) !! Tx.acc prev = Some F /\
     Account.deposit (Tx.amt lastTx) "undo transfer" F = inr F' /\
     b' = {| Bank.a := <[Tx.acc prev := F']> (<[Tx.acc lastTx := T']> (Bank.a b));
             Bank.log := l;
             Bank.next := Bank.next b |}) /\
  (forall b0 from to v note,
     Bank.transfer from to v note b0 = (inr tt, b) ->
     exists A B,
       Bank.a b0 !! from = Some A /\ Bank.a b0 !! to = Some B /\
       Account.bal <$> Bank.a b' !! from = Some (Account.bal A - v + v)%float /\
       Account.bal <$> Bank.a b' !! to = Some (Account.bal B + v - v)%float /\
       (forall i, i <> from -> i <> to -> Bank.a b' !! i = Bank.a b0 !! i) /\
       Bank.log b' = Bank.log b0).
Proof.
  intros Hl Hpair Hu.
  rewrite (undo_pair_branch err b l prev lastTx Hl Hpair) in Hu.
  apply try_catch_true in Hu as [Hu ->].
  apply undo_pair_inr in Hu as (T & T' & F & F' & HT & HT' & HF & HF' & ->).
  rewrite Hl.
  rewrite tail_removelast.
  split; [by exists T, T', F, F'|].
  intros b0 from to v note Ht.
  apply transfer_inr in Ht as (Hne & A & A' & B & B' & HA & HA' & HB & HB' & ->).
  simpl in Hl, HT, HF. apply tail_inj in Hl as (<- & <- & <-). simpl in *.
  rewrite lookup_insert_eq in HT. injection HT as <-.
  rewrite lookup_insert_ne, lookup_insert_ne, lookup_insert_eq in HF by done.
  injection HF as <-.
  apply withdraw_inr in HA' as (_ & _ & ->). apply deposit_inr in HB' as (_ & ->).
  apply withdraw_inr in HT' as (_ & _ & ->). apply deposit_inr in HF' as (_ & ->).
  exists A, B. simpl. repeat split; try done.
  - by rewrite lookup_insert_eq.
  - by rewrite lookup_insert_ne, lookup_insert_eq.
  - intros i Hf Hto. by rewrite !lookup_insert_ne.
Qed.

Lemma undo_reverses_transfer_pair_witness :
  let b0 := run [CreateChecking "Alice" 100; CreateChecking "Bob" 0] in
  let b := snd (Bank.transfer 1 2 40 "manual" b0) in
  let b' := snd (Bank.undo "" b) in
  Account.bal <$> Bank.a b' !! 1 = Some (100 - 40 + 40)%float /\
  Account.bal <$> Bank.a b' !! 2 = Some (0 + 40 - 40)%float /\
  Bank.log b' = Bank.log b0.
Proof.
  intros b0 b b'.
  destruct (undo_reverses_transfer_pair "" b (Bank.log b0)
              (Tx.mk 1 TransferOut 40 "to 2") (Tx.mk 2 TransferIn 40 "from 1") "" b')
    as [_ H]; try (vm_compute; reflexivity).
  { repeat split; vm_compute; reflexivity. }
  destruct (H b0 1 2 40%float "manual") as (A & B & HA & HB & HbalA & HbalB & _ & Hlog);
    [vm_compute; reflexivity|].
  assert (A = Account.mk 1 "Alice" 100 [Tx.mk 1 Deposit 100 "initial"]) as ->
    by (vm_compute in HA; congruence).
  assert (B = Account.mk 2 "Bob" 0 []) as -> by (vm_compute in HB; congruence).
  repeat split; assumption.
Defined.

(** C5, as stated, fails: after a transfer of 0.2 from an account holding 1
    to an account holding 0.1, undone at once, the destination holds
    0.10000000000000003. *)
Lemma undo_after_transfer_balance_not_restored :
  let b0 := run [CreateChecking "Alice" 1; CreateChecking "Bob" one_tenth] in
  let t := Bank.transfer 1 2 two_tenths "manual" b0 in
  let u := Bank.undo "" (snd t) in
  fst t = inr tt /\ fst u = (true, "") /\
  Bank.log (snd u) = Bank.log b0 /\
  Account.bal <$> Bank.a b0 !! 2 = Some one_tenth /\
  Account.bal <$> Bank.a (snd u) !! 2 = Some 0x1.999999999999cp-4%float /\
  (0x1.999999999999cp-4 =? one_tenth)%float = false.
Proof. vm_compute. repeat split; reflexivity. Qed.

(** ** Every successful undo *)

Lemma transfer_pair_dec prev lastTx :
  {transfer_pair prev lastTx} + {~ transfer_pair prev lastTx}.
Proof.
  unfold transfer_pair.
  destruct (decide (Tx.type prev = TransferOut)); [|right; tauto].
  destruct (decide (Tx.type lastTx = TransferIn)); [|right; tauto].
  destruct (Tx.amt prev =? Tx.amt lastTx)%float; [left; tauto|right].
  intros (_ & _ & ?). discriminate.
Qed.

(** The three ways [undo] can go. *)
Lemma undo_branches err b :
  (Bank.log b = [] /\ Bank.undo err b = ((false, "nothing to undo"), b)) \/
  (exists l lastTx,
     Bank.log b = l ++ [lastTx] /\
     Bank.undo err b = Bank.try_catch (Bank.undo_single lastTx) err b) \/
  (exists l prev lastTx,
     Bank.log b = l ++ [prev; lastTx] /\ transfer_pair prev lastTx /\
     Bank.undo err b = Bank.try_catch (Bank.undo_pair prev lastTx) err b).
Proof.
  destruct (Bank.log b) as [|lastTx l _] eqn:Hl using rev_ind.
  { left. split; [done|]. by apply undo_empty. }
  right. destruct l as [|prev l0 _] using rev_ind.
  - left. exists [], lastTx. split; [done|].
    apply (undo_single_branch err b [] lastTx Hl).
    intros (l' & p & x & E & _). rewrite Hl in E.
    apply (f_equal length) in E. rewrite !length_app in E. simpl in E. lia.
  - destruct (transfer_pair_dec prev lastTx) as [Hp|Hnp].
    + right. exists l0, prev, lastTx. rewrite <- app_assoc. split; [done|].
      split; [done|]. apply (undo_pair_branch err b l0 prev lastTx); [|done].
      by rewrite Hl, <- app_assoc.
    + left. exists (l0 ++ [prev]), lastTx. split; [done|].
      apply (undo_single_branch err b (l0 ++ [prev]) lastTx Hl).
      intros (l' & p & x & E & Hp). rewrite Hl, <- app_assoc in E.
      apply tail_inj in E as (_ & -> & ->). done.
Qed.

Lemma reversal_inr x X X' :
  reversal x X = inr X' ->
  (Tx.amt x <=? 0)%float = false /\
  Account.hist X'
  = Account.hist X ++ [Tx.mk (Account.id X) (compensating (Tx.type x)) (Tx.amt x) "undo"].
Proof.
  unfold reversal, compensating. destruct (Tx.type x); intros H.
  - apply withdraw_inr in H as (? & _ & ->). done.
  - apply deposit_inr in H as (? & ->). done.
  - apply withdraw_inr in H as (? & _ & ->). done.
  - apply deposit_inr in H as (? & ->). done.
Qed.

(** C8. After a successful [undo] the global log is the old one without its
    last entry, or without its last two entries (a transfer pair): nothing
    is appended to it, so the next [undo] meets an older entry.  The
    compensating entries go to the histories of the accounts: for a single
    entry, one entry of the opposite kind noted "undo" in its account's
    history; for a pair, a [Withdraw] noted "undo transfer" in the
    [TransferIn] account's history and then a [Deposit] noted
    "undo transfer" in the [TransferOut] account's history. *)
Theorem undo_compensates_in_history_only err b r b' :
  Bank.undo err b = ((true, r), b') ->
  (exists l lastTx X X',
     Bank.log b = l ++ [lastTx] /\ Bank.log b' = l /\
     Bank.a b !! Tx.acc lastTx = Some X /\
     Account.hist X'
     = Account.hist X
         ++ [Tx.mk (Account.id X) (compensating (Tx.type lastTx)) (Tx.amt lastTx) "undo"] /\
     Bank.a b' = <[Tx.acc lastTx := X']> (Bank.a b)) \/
  (exists l prev lastTx T T' F F',
     Bank.log b = l ++ [prev; lastTx] /\ Bank.log b' = l /\
     Bank.a b !! Tx.acc lastTx = Some T /\
     Account.hist T'
     = Account.hist T ++ [Tx.mk (Account.id T) Withdraw (Tx.amt lastTx) "undo transfer"] /\
     <[Tx.acc lastTx := T']> (Bank.a b) !! Tx.acc prev = Some F /\
     Account.hist F'
     = Account.hist F ++ [Tx.mk (Account.id F) Deposit (Tx.amt lastTx) "undo transfer"] /\
     Bank.a b' = <[Tx.acc prev := F']> (<[Tx.acc lastTx := T']> (Bank.a b))).
Proof.
  intros Hu.
  destruct (undo_branches err b)
    as [[_ E]|[(l & lastTx & Hl & E)|(l & prev & lastTx & Hl & Hp & E)]];
    rewrite E in Hu; [discriminate|..]; apply try_catch_true in Hu as [Hu _].
  - left. apply undo_single_inr in Hu as (X & X' & HX & HX' & ->).
    apply reversal_inr in HX' as [_ Hh].
    exists l, lastTx, X, X'. simpl. by rewrite Hl, removelast_last.
  - right. apply undo_pair_inr in Hu as (T & T' & F & F' & HT & HT' & HF & HF' & ->).
    apply withdraw_inr in HT' as (_ & _ & ->). apply deposit_inr in HF' as (_ & ->).
    eexists l, prev, lastTx, T, _, F, _. simpl. rewrite Hl, tail_removelast.
    repeat split; try done.
Qed.

Lemma undo_compensates_in_history_only_witness :
  let b := run [CreateChecking "Alice" 100; CallWithdraw 1 30 "manual"] in
  let b' := snd (Bank.undo "" b) in
  Bank.log b' = [Tx.mk 1 Deposit 100 "initial"] /\
  Account.hist <$> Bank.a b' !! 1
  = Some [Tx.mk 1 Deposit 100 "initial"; Tx.mk 1 Withdraw 30 "manual";
          Tx.mk 1 Deposit 30 "undo"].
Proof.
  intros b b'.
  destruct (undo_compensates_in_history_only "" b "" b')
    as [(l & lastTx & X & X' & Hl & Hl' & HX & HX' & Ha)
       |(l & prev & lastTx & T & T' & F & F' & Hl & _)]; [vm_compute; reflexivity|..].
  - change (Bank.log b) with ([Tx.mk 1 Deposit 100 "initial"]
                                ++ [Tx.mk 1 Withdraw 30 "manual"]) in Hl.
    apply app_inj_tail in Hl as [<- <-]. split; [exact Hl'|].
    rewrite Ha. simpl. rewrite lookup_insert_eq. simpl. rewrite HX'.
    vm_compute in HX. injection HX as <-. reflexivity.
  - change (Bank.log b) with ([] ++ [Tx.mk 1 Deposit 100 "initial";
                                      Tx.mk 1 Withdraw 30 "manual"]) in Hl.
    apply tail_inj in Hl as (_ & _ & <-).
    vm_compute. split; reflexivity.
Defined.

(** ** What every run preserves *)

(** [log_ok] survives any change that keeps the accounts of the map, and
    adds to the log only entries that are themselves fine. *)
Lemma log_ok_extend b b' :
  log_ok b ->
  (forall i, is_Some (Bank.a b !! i) -> is_Some (Bank.a b' !! i)) ->
  (forall x, x ∈ Bank.log b' ->
     x ∈ Bank.log b \/
     (is_Some (Bank.a b' !! Tx.acc x) /\ (Tx.amt x <=? 0)%float = false)) ->
  log_ok b'.
Proof.
  intros Hok Hdom Hlog x Hx. destruct (Hlog x Hx) as [Hold|Hnew]; [|done].
  destruct (Hok x Hold) as [Hs Hv]. split; [by apply Hdom|done].
Qed.

Lemma insert_keeps_accounts (m : gmap Z Account.t) i s j :
  is_Some (m !! j) -> is_Some (<[i := s]> m !! j).
Proof.
  intros H. destruct (decide (i = j)) as [->|Hne].
  - rewrite lookup_insert_eq. by eexists.
  - by rewrite lookup_insert_ne.
Qed.

Lemma log_ok_set_acc id s b : log_ok b -> log_ok (Bank.set_acc id s b).
Proof.
  intros Hok. apply (log_ok_extend b); [done| |by left].
  intros j. apply insert_keeps_accounts.
Qed.

Lemma elem_of_removelast {A} (l : list A) x : x ∈ removelast l -> x ∈ l.
Proof.
  destruct l as [|y l _] using rev_ind; [done|].
  rewrite removelast_last. set_solver.
Qed.

Lemma createChecking_log_ok owner init b :
  log_ok b -> log_ok (snd (Bank.createChecking owner init b)).
Proof.
  intros Hok. unfold Bank.createChecking, Bank.bind, Bank.emplace_back, Bank.ret.
  destruct (0 <? init)%float eqn:Hinit; simpl.
  - apply (log_ok_extend b); [done|intros j; apply insert_keeps_accounts|].
    simpl. intros x [Hx|Hx]%elem_of_app; [by left|right].
    apply list_elem_of_singleton in Hx as ->. simpl.
    rewrite lookup_insert_eq. split; [by eexists|by apply ltb_leb_false].
  - apply (log_ok_extend b); [done|intros j; apply insert_keeps_accounts|by left].
Qed.

Lemma deposit_log_ok id v note b :
  log_ok b -> log_ok (snd (Bank.deposit id v note b)).
Proof.
  intros Hok. destruct (Bank.deposit id v note b) as [[e|[]] b'] eqn:Hd; simpl.
  - by apply bank_deposit_inl in Hd as ->.
  - apply bank_deposit_inr in Hd as (X & X' & HX & HX' & ->).
    apply deposit_inr in HX' as [Hv _].
    apply (log_ok_extend b); [done|intros j; apply insert_keeps_accounts|].
    simpl. intros x [Hx|Hx]%elem_of_app; [by left|right].
    apply list_elem_of_singleton in Hx as ->. simpl.
    rewrite lookup_insert_eq. split; [by eexists|done].
Qed.

Lemma withdraw_log_ok id v note b :
  log_ok b -> log_ok (snd (Bank.withdraw id v note b)).
Proof.
  intros Hok. destruct (Bank.withdraw id v note b) as [[e|[]] b'] eqn:Hd; simpl.
  - by apply bank_withdraw_inl in Hd as ->.
  - apply bank_withdraw_inr in Hd as (X & X' & HX & HX' & ->).
    apply withdraw_inr in HX' as [Hv _].
    apply (log_ok_extend b); [done|intros j; apply insert_keeps_accounts|].
    simpl. intros x [Hx|Hx]%elem_of_app; [by left|right].
    apply list_elem_of_singleton in Hx as ->. simpl.
    rewrite lookup_insert_eq. split; [by eexists|done].
Qed.

Lemma transfer_log_ok from to v note b :
  log_ok b -> log_ok (snd (Bank.transfer from to v note b)).
Proof.
  intros Hok. destruct (Bank.transfer from to v note b) as [[e|[]] b'] eqn:Ht; simpl.
  - apply transfer_inl in Ht as [->|(_ & _ & _ & A & A' & _ & _ & ->)]; [done|].
    by apply log_ok_set_acc.
  - apply transfer_inr in Ht as (Hne & A & A' & B & B' & HA & HA' & HB & HB' & ->).
    apply withdraw_inr in HA' as [Hv _].
    apply (log_ok_extend b); [done|intros j ?; by do 2 apply insert_keeps_accounts|].
    simpl. intros x [Hx|Hx]%elem_of_app; [by left|right].
    apply elem_of_cons in Hx as [->|Hx]; simpl.
    + rewrite lookup_insert_ne, lookup_insert_eq by done. split; [by eexists|done].
    + apply list_elem_of_singleton in Hx as ->. simpl.
      rewrite lookup_insert_eq. split; [by eexists|done].
Qed.

Lemma undo_log_ok err b : log_ok b -> log_ok (snd (Bank.undo err b)).
Proof.
  intros Hok.
  destruct (undo_branches err b)
    as [[_ E]|[(l & lastTx & Hl & E)|(l & prev & lastTx & Hl & Hp & E)]];
    rewrite E; [done|..]; unfold Bank.try_catch.
  - destruct (Bank.undo_single lastTx b) as [[e|[]] b'] eqn:Hu; simpl.
    + by apply undo_single_inl in Hu as ->.
    + apply undo_single_inr in Hu as (X & X' & _ & _ & ->).
      apply (log_ok_extend b); [done|intros j; apply insert_keeps_accounts|].
      simpl. intros x Hx. left. by apply elem_of_removelast.
  - destruct (Bank.undo_pair prev lastTx b) as [[e|[]] b'] eqn:Hu; simpl.
    + apply undo_pair_inl in Hu as [->|(_ & T & T' & _ & _ & ->)]; [done|].
      by apply log_ok_set_acc.
    + apply undo_pair_inr in Hu as (T & T' & F & F' & _ & _ & _ & _ & ->).
      apply (log_ok_extend b); [done|intros j ?; by do 2 apply insert_keeps_accounts|].
      simpl. intros x Hx. left. by do 2 apply elem_of_removelast.
Qed.

Lemma step_log_ok b c : log_ok b -> log_ok (step b c).
Proof.
  destruct c; simpl;
    auto using createChecking_log_ok, deposit_log_ok, withdraw_log_ok,
               transfer_log_ok, undo_log_ok.
Qed.

(** Every bank a run reaches has a sound global log. *)
Lemma run_log_ok cs : log_ok (run cs).
Proof.
  unfold run. induction cs as [|c cs IH] using rev_ind.
  - intros x Hx. simpl in Hx. by apply elem_of_nil in Hx.
  - rewrite foldl_snoc. by apply step_log_ok.
Qed.

(** C6. In every bank a run reaches whose global log ends in a matched
    transfer pair, an [undo] that fails returns the bank it was called on: no
    entry of the global log is removed and no account, balance or history
    has changed.  The call that threw is the withdrawal from the
    [TransferIn] account, which throws before it mutates; its message is the
    one [undo] reports.  (The deposit leg cannot throw there.) *)
Theorem undo_pair_failure_changes_nothing cs l prev lastTx err r b' :
  Bank.log (run cs) = l ++ [prev; lastTx] ->
  transfer_pair prev lastTx ->
  Bank.undo err (run cs) = ((false, r), b') ->
  b' = run cs /\
  exists e,
    r = what e /\
    Bank.on_acc (Tx.acc lastTx) (Account.withdraw (Tx.amt lastTx) "undo transfer")
      (run cs)
    = (inl e, run cs).
Proof.
  intros Hl Hp Hu.
  rewrite (undo_pair_branch err (run cs) l prev lastTx Hl Hp) in Hu.
  apply try_catch_false in Hu as (e & Hu & ->).
  apply undo_pair_inl_withdrawal in Hu as [Hw ->].
  - split; [done|]. by exists e.
  - apply (run_log_ok cs prev). rewrite Hl. set_solver.
Qed.

Lemma undo_pair_failure_changes_nothing_witness :
  let cs := [CreateChecking "Alice" 100; CreateChecking "Bob" 0;
             CallTransfer 1 2 40 "manual"; CallTransfer 2 3 40 "manual"] in
  fst (Bank.undo "" (run cs)) = (false, "insufficient") /\
  snd (Bank.undo "" (run cs)) = run cs.
Proof.
  intros cs. split; [vm_compute; reflexivity|].
  refine (proj1 (undo_pair_failure_changes_nothing cs [Tx.mk 1 Deposit 100 "initial"]
                   (Tx.mk 1 TransferOut 40 "to 2") (Tx.mk 2 TransferIn 40 "from 1")
                   "" "insufficient" _ _ _ _)).
  - vm_compute; reflexivity.
  - repeat split; vm_compute; reflexivity.
  - vm_compute; reflexivity.
Defined.

(** ** How a call changes the account map *)

Lemma createChecking_spec owner init b :
  Bank.createChecking owner init b
  = (inr (Bank.next b),
     {| Bank.a := <[Bank.next b := Account.new (Bank.next b) owner init]> (Bank.a b);
        Bank.log := Bank.log b
                      ++ (if (0 <? init)%float
                          then [Tx.mk (Bank.next b) Deposit init "initial"] else []);
        Bank.next := Bank.next b + 1 |}).
Proof.
  unfold Bank.createChecking, Bank.bind, Bank.emplace_back, Bank.ret, Checking.
  destruct (0 <? init)%float; simpl; [done|by rewrite app_nil_r].
Qed.

Lemma reversal_call x m i X X' :
  m !! i = Some X -> reversal x X = inr X' -> account_call m (<[i := X']> m).
Proof.
  unfold reversal. destruct (Tx.type x); intros;
    first [by eapply call_withdraw|by eapply call_deposit].
Qed.

(** Every call other than [createChecking] leaves [next] alone and changes
    the map by account calls only. *)
Lemma step_calls b c :
  match c with
  | CreateChecking owner init =>
      Bank.a (step b c)
      = <[Bank.next b := Account.new (Bank.next b) owner init]> (Bank.a b) /\
      Bank.next (step b c) = Bank.next b + 1
  | _ =>
      rtc account_call (Bank.a b) (Bank.a (step b c)) /\
      Bank.next (step b c) = Bank.next b
  end.
Proof.
  destruct c as [owner init|id v note|id v note|from to v note|err]; simpl.
  - by rewrite createChecking_spec.
  - destruct (Bank.deposit id v note b) as [[e|[]] b'] eqn:Hd; simpl.
    + by apply bank_deposit_inl in Hd as ->.
    + apply bank_deposit_inr in Hd as (X & X' & HX & HX' & ->). simpl.
      split; [|done]. apply rtc_once. by eapply call_deposit.
  - destruct (Bank.withdraw id v note b) as [[e|[]] b'] eqn:Hd; simpl.
    + by apply bank_withdraw_inl in Hd as ->.
    + apply bank_withdraw_inr in Hd as (X & X' & HX & HX' & ->). simpl.
      split; [|done]. apply rtc_once. by eapply call_withdraw.
  - destruct (Bank.transfer from to v note b) as [[e|[]] b'] eqn:Ht; simpl.
    + apply transfer_inl in Ht as [->|(_ & _ & _ & A & A' & HA & HA' & ->)]; [done|].
      simpl. split; [|done]. apply rtc_once.
      apply (call_withdraw _ _ A A' _ _ HA HA').
    + apply transfer_inr in Ht as (Hne & A & A' & B & B' & HA & HA' & HB & HB' & ->).
      simpl. split; [|done].
      eapply rtc_l; [apply (call_withdraw _ _ A A' _ _ HA HA')|].
      apply rtc_once. refine (call_deposit _ to B B' v _ _ HB').
      by rewrite lookup_insert_ne.
  - destruct (undo_branches err b)
      as [[_ E]|[(l & lastTx & Hl & E)|(l & prev & lastTx & Hl & Hp & E)]];
      rewrite E; [done|..]; unfold Bank.try_catch.
    + destruct (Bank.undo_single lastTx b) as [[e|[]] b'] eqn:Hu; simpl.
      * by apply undo_single_inl in Hu as ->.
      * apply undo_single_inr in Hu as (X & X' & HX & HX' & ->). simpl.
        split; [|done]. apply rtc_once. by eapply reversal_call.
    + destruct (Bank.undo_pair prev lastTx b) as [[e|[]] b'] eqn:Hu; simpl.
      * apply undo_pair_inl in Hu as [->|(_ & T & T' & HT & HT' & ->)]; [done|].
        simpl. split; [|done]. apply rtc_once.
        apply (call_withdraw _ _ T T' _ _ HT HT').
      * apply undo_pair_inr in Hu as (T & T' & F & F' & HT & HT' & HF & HF' & ->).
        simpl. split; [|done].
        eapply rtc_l; [apply (call_withdraw _ _ T T' _ _ HT HT')|].
        apply rtc_once. apply (call_deposit _ _ F F' _ _ HF HF').
Qed.

(** ** What every account of a reachable bank looks like *)

Lemma account_call_from ok m m' :
  account_call m m' -> accounts_from ok m -> accounts_from ok m'.
Proof.
  intros [i X X' v note HX HX'|i X X' v note HX HX'] Hm j Y;
    (destruct (decide (i = j)) as [->|Hne];
     [rewrite lookup_insert_eq; intros [= <-]|rewrite lookup_insert_ne by done; apply Hm]).
  - eapply from_deposit; [by apply Hm|done].
  - eapply from_withdraw; [by apply Hm|done].
Qed.

Lemma account_calls_from ok m m' :
  rtc account_call m m' -> accounts_from ok m -> accounts_from ok m'.
Proof. induction 1; eauto using account_call_from. Qed.

Lemma step_accounts_from ok b c :
  call_ok ok c -> accounts_from ok (Bank.a b) -> accounts_from ok (Bank.a (step b c)).
Proof.
  intros Hc Hb. pose proof (step_calls b c) as H.
  destruct c as [owner init| | | |];
    try (destruct H as [H _]; by eapply account_calls_from).
  destruct H as [-> _]. intros j Y.
  destruct (decide (Bank.next b = j)) as [<-|Hne].
  - rewrite lookup_insert_eq. intros [= <-]. by apply from_new.
  - rewrite lookup_insert_ne by done. apply Hb.
Qed.

Lemma run_accounts_from ok cs :
  Forall (call_ok ok) cs -> accounts_from ok (Bank.a (run cs)).
Proof.
  unfold run. induction cs as [|c cs IH] using rev_ind; intros Hcs.
  - intros i X. simpl. by rewrite lookup_empty.
  - apply Forall_app in Hcs as [Hcs Hc]. rewrite foldl_snoc.
    apply step_accounts_from; [by inversion Hc|by apply IH].
Qed.

(** An account keeps the id it was made with. *)
Lemma account_from_id ok i X : account_from ok i X -> Account.id X = i.
Proof.
  induction 1 as [owner init _|X X' v note _ IH H|X X' v note _ IH H]; [done|..].
  - apply deposit_inr in H as [_ ->]. done.
  - apply withdraw_inr in H as (_ & _ & ->). done.
Qed.

Lemma signed_sum_snoc h x : signed_sum (h ++ [x]) = signed (signed_sum h) x.
Proof. unfold signed_sum. by rewrite foldl_snoc. Qed.

(** Its balance is the running signed sum of its history. *)
Lemma account_from_sum i X :
  account_from init_ok i X -> Account.bal X = signed_sum (Account.hist X).
Proof.
  induction 1 as [owner init Hinit|X X' v note _ IH H|X X' v note _ IH H].
  - unfold Account.new. simpl. destruct Hinit as [Hpos| ->].
    + rewrite Hpos. unfold signed_sum, signed. simpl. by rewrite add_zero_l.
    + reflexivity.
  - apply deposit_inr in H as [_ ->]. simpl.
    rewrite signed_sum_snoc. unfold signed. simpl. by rewrite IH.
  - apply withdraw_inr in H as (_ & _ & ->). simpl.
    rewrite signed_sum_snoc. unfold signed. simpl. by rewrite IH.
Qed.

(** Its balance never compares below zero. *)
Lemma account_from_not_below_zero i X :
  account_from (fun init => (init <? 0)%float = false) i X ->
  (Account.bal X <? 0)%float = false.
Proof.
  induction 1 as [owner init Hinit|X X' v note _ IH H|X X' v note _ IH H].
  - done.
  - apply deposit_inr in H as [Hv ->]. simpl. by apply add_not_below_zero.
  - apply withdraw_inr in H as (Hv & Hlt & ->). simpl. by apply sub_not_below_zero.
Qed.

(** ** Ids *)

Lemma account_call_dom m m' i :
  account_call m m' -> is_Some (m' !! i) <-> is_Some (m !! i).
Proof.
  intros [j X X' v note HX _|j X X' v note HX _];
    (destruct (decide (j = i)) as [->|Hne];
     [rewrite lookup_insert_eq, HX; split; by eexists
     |by rewrite lookup_insert_ne]).
Qed.

Lemma account_calls_dom m m' i :
  rtc account_call m m' -> is_Some (m' !! i) <-> is_Some (m !! i).
Proof.
  induction 1 as [|m1 m2 m3 H12 _ IH]; [done|].
  by rewrite IH, (account_call_dom m1 m2 i H12).
Qed.

Lemma step_ids_ok b c : ids_ok b -> ids_ok (step b c).
Proof.
  intros [Hn Hb]. pose proof (step_calls b c) as H. unfold ids_ok.
  destruct c as [owner init| | | |];
    try (destruct H as [H ->]; split; [done|];
         intros i Hi; apply Hb; by apply (account_calls_dom _ _ i H)).
  destruct H as [-> ->]. split; [lia|]. intros i.
  destruct (decide (Bank.next b = i)) as [<-|Hne].
  - intros _. lia.
  - rewrite lookup_insert_ne by done. intros Hi%Hb. lia.
Qed.

Lemma run_ids_ok cs : ids_ok (run cs).
Proof.
  unfold run. induction cs as [|c cs IH] using rev_ind.
  - split; [done|]. intros i. simpl. rewrite lookup_empty. by intros [? ?].
  - rewrite foldl_snoc. by apply step_ids_ok.
Qed.

Lemma account_from_mono (ok ok' : float -> Prop) i X :
  (forall init, ok init -> ok' init) -> account_from ok i X -> account_from ok' i X.
Proof.
  intros Hok. induction 1; [apply from_new; auto|by eapply from_deposit
                           |by eapply from_withdraw].
Qed.

Lemma init_ok_not_below_zero init : init_ok init -> (init <? 0)%float = false.
Proof.
  intros [Hpos| ->]; [|reflexivity].
  destruct (init <? 0)%float eqn:Hneg; [|done].
  apply ltb_leb in Hneg. apply ltb_leb_false in Hpos. congruence.
Qed.

(** X1. In every bank reached by calls whose initial balances are positive
    or zero, each account carries the id it is stored under, its balance is
    the running signed sum of its own history, and its balance is not below
    zero. *)
Theorem reachable_account_balance_invariant cs i X :
  Forall (call_ok init_ok) cs ->
  Bank.a (run cs) !! i = Some X ->
  Account.id X = i /\
  Account.bal X = signed_sum (Account.hist X) /\
  (Account.bal X <? 0)%float = false.
Proof.
  intros Hcs HX. pose proof (run_accounts_from init_ok cs Hcs i X HX) as H.
  split; [by eapply account_from_id|].
  split; [by apply (account_from_sum i)|].
  apply (account_from_not_below_zero i).
  eapply account_from_mono; [apply init_ok_not_below_zero|done].
Qed.

Lemma reachable_account_balance_invariant_witness :
  let cs := [CreateChecking "Alice" 100; CallDeposit 1 40 "manual";
             CallWithdraw 1 30 "manual"] in
  let X := Account.mk 1 "Alice" 110
             [Tx.mk 1 Deposit 100 "initial"; Tx.mk 1 Deposit 40 "manual";
              Tx.mk 1 Withdraw 30 "manual"] in
  Account.id X = 1 /\
  Account.bal X = signed_sum (Account.hist X) /\
  (Account.bal X <? 0)%float = false.
Proof.
  intros cs X. apply (reachable_account_balance_invariant cs 1 X).
  - repeat constructor; left; reflexivity.
  - vm_compute. reflexivity.
Defined.

(** X2. In every bank a run reaches, each entry of the global log names an
    account of the map and carries an amount that passed the guard
    [v <= 0]; so depositing the entry's amount back to its account, as the
    second leg of an undone transfer does, returns normally. *)
Theorem reachable_log_entry_can_be_redeposited cs x note :
  x ∈ Bank.log (run cs) ->
  is_Some (Bank.a (run cs) !! Tx.acc x) /\
  (Tx.amt x <=? 0)%float = false /\
  exists b',
    Bank.on_acc (Tx.acc x) (Account.deposit (Tx.amt x) note) (run cs) = (inr tt, b').
Proof.
  intros Hx. destruct (run_log_ok cs x Hx) as [[X HX] Hv].
  split; [by exists X|]. split; [done|].
  unfold Bank.on_acc, Bank.bind, Bank.acc. rewrite HX.
  unfold Account.deposit. rewrite Hv. by eexists.
Qed.

Lemma reachable_log_entry_can_be_redeposited_witness :
  let cs := [CreateChecking "Alice" 100; CreateChecking "Bob" 0;
             CallTransfer 1 2 40 "manual"] in
  exists b',
    Bank.on_acc 1 (Account.deposit 40 "undo transfer") (run cs) = (inr tt, b').
Proof.
  intros cs.
  destruct (reachable_log_entry_can_be_redeposited cs
              (Tx.mk 1 TransferOut 40 "to 2") "undo transfer")
    as (_ & _ & H); [|exact H].
  vm_compute. set_solver.
Defined.

(** X3. A deposit or withdrawal through the bank either throws and leaves
    the bank as it was, or applies the account's mutation and appends
    exactly one mirrored entry to the global log. *)
Theorem single_account_call_is_atomic id v note b :
  ((exists e, Bank.deposit id v note b = (inl e, b)) \/
   (exists X X',
      Bank.a b !! id = Some X /\ Account.deposit v note X = inr X' /\
      Bank.deposit id v note b
      = (inr tt, {| Bank.a := <[id := X']> (Bank.a b);
                    Bank.log := Bank.log b ++ [Tx.mk id Deposit v note];
                    Bank.next := Bank.next b |}))) /\
  ((exists e, Bank.withdraw id v note b = (inl e, b)) \/
   (exists X X',
      Bank.a b !! id = Some X /\ Account.withdraw v note X = inr X' /\
      Bank.withdraw id v note b
      = (inr tt, {| Bank.a := <[id := X']> (Bank.a b);
                    Bank.log := Bank.log b ++ [Tx.mk id Withdraw v note];
                    Bank.next := Bank.next b |}))).
Proof.
  split.
  - destruct (Bank.deposit id v note b) as [[e|[]] b'] eqn:Hd.
    + left. apply bank_deposit_inl in Hd as ->. by exists e.
    + right. apply bank_deposit_inr in Hd as (X & X' & HX & HX' & ->).
      by exists X, X'.
  - destruct (Bank.withdraw id v note b) as [[e|[]] b'] eqn:Hd.
    + left. apply bank_withdraw_inl in Hd as ->. by exists e.
    + right. apply bank_withdraw_inr in Hd as (X & X' & HX & HX' & ->).
      by exists X, X'.
Qed.

(** X4. A deposit of an amount [v <= 0] throws [BankError] from the account
    ("deposit>0"), or [NotFound] when the account is missing, and leaves the
    bank unchanged. *)
Theorem deposit_of_nonpositive_amount_rejected id v note b :
  (v <=? 0)%float = true ->
  (forall X, Account.deposit v note X = inl (BankError "deposit>0")) /\
  Bank.deposit id v note b
  = (inl (match Bank.a b !! id with
          | Some _ => BankError "deposit>0"
          | None => NotFound "no account"
          end), b).
Proof.
  intros Hv. unfold Account.deposit. rewrite Hv. split; [done|].
  unfold Bank.deposit, Bank.bind, Bank.on_acc, Bank.bind, Bank.acc.
  destruct (Bank.a b !! id); [|done]. unfold Account.deposit. by rewrite Hv.
Qed.

Lemma deposit_of_nonpositive_amount_rejected_witness :
  let b := run [CreateChecking "Alice" 50] in
  Bank.deposit 1 0 "manual" b = (inl (BankError "deposit>0"), b).
Proof.
  intros b.
  destruct (deposit_of_nonpositive_amount_rejected 1 0 "manual" b) as [_ H];
    [reflexivity|].
  rewrite H. reflexivity.
Defined.

(** X5. A withdrawal of a positive amount above the account's balance
    throws [Insufficient] and leaves the bank unchanged. *)
Theorem withdraw_above_balance_rejected id v note b X :
  Bank.a b !! id = Some X ->
  (0 <? v)%float = true ->
  (Account.bal X <? v)%float = true ->
  Bank.withdraw id v note b = (inl (Insufficient "insufficient"), b).
Proof.
  intros HX Hv%ltb_leb_false Hlt.
  unfold Bank.withdraw, Bank.bind, Bank.on_acc, Bank.bind, Bank.acc.
  rewrite HX. unfold Account.withdraw. by rewrite Hv, Hlt.
Qed.

Lemma withdraw_above_balance_rejected_witness :
  let b := run [CreateChecking "Alice" 50] in
  Bank.withdraw 1 80 "manual" b = (inl (Insufficient "insufficient"), b) /\
  Account.bal <$> Bank.a b !! 1 = Some 50%float.
Proof.
  intros b. split; [|vm_compute; reflexivity].
  apply (withdraw_above_balance_rejected 1 80 "manual" b
           (Account.mk 1 "Alice" 50 [Tx.mk 1 Deposit 50 "initial"]));
    vm_compute; reflexivity.
Defined.

(** X6. In every bank a run reaches, [createChecking] returns the id
    [next], which no account of the map has yet, stores the new account
    under it, moves [next] on by one, and appends the "initial" deposit to
    the global log exactly when the initial balance is above zero. *)
Theorem createChecking_allocates_fresh_id cs owner init :
  Bank.a (run cs) !! Bank.next (run cs) = None /\
  Bank.createChecking owner init (run cs)
  = (inr (Bank.next (run cs)),
     {| Bank.a := <[Bank.next (run cs) := Account.new (Bank.next (run cs)) owner init]>
                    (Bank.a (run cs));
        Bank.log := Bank.log (run cs)
                      ++ (if (0 <? init)%float
                          then [Tx.mk (Bank.next (run cs)) Deposit init "initial"]
                          else []);
        Bank.next := Bank.next (run cs) + 1 |}).
Proof.
  split; [|apply createChecking_spec].
  destruct (run_ids_ok cs) as [_ H].
  destruct (Bank.a (run cs) !! Bank.next (run cs)) as [X|] eqn:HX; [|done].
  assert (is_Some (Bank.a (run cs) !! Bank.next (run cs))) as Hs%H by by eexists.
  lia.
Qed.

(** ** Lifecycle: accounts stay, histories only grow *)

Lemma account_call_keeps m m' i X :
  account_call m m' -> m !! i = Some X ->
  exists X' new,
    m' !! i = Some X' /\ Account.id X' = Account.id X /\
    Account.owner X' = Account.owner X /\
    Account.hist X' = Account.hist X ++ new.
Proof.
  intros [j Y Y' v note HY HY'|j Y Y' v note HY HY'] HX;
    (destruct (decide (j = i)) as [->|Hne];
     [|exists X, []; by rewrite lookup_insert_ne, app_nil_r]);
    rewrite lookup_insert_eq; assert (Y = X) as -> by congruence.
  - apply deposit_inr in HY' as [_ ->]. by eexists _, _.
  - apply withdraw_inr in HY' as (_ & _ & ->). by eexists _, _.
Qed.

Lemma account_calls_keep m m' i X :
  rtc account_call m m' -> m !! i = Some X ->
  exists X' new,
    m' !! i = Some X' /\ Account.id X' = Account.id X /\
    Account.owner X' = Account.owner X /\
    Account.hist X' = Account.hist X ++ new.
Proof.
  intros H. revert X. induction H as [m|m1 m2 m3 H12 _ IH]; intros X HX.
  - exists X, []. by rewrite app_nil_r.
  - destruct (account_call_keeps m1 m2 i X H12 HX) as (X1 & new1 & HX1 & Hi & Ho & Hh).
    destruct (IH X1 HX1) as (X2 & new2 & HX2 & Hi2 & Ho2 & Hh2).
    exists X2, (new1 ++ new2). rewrite Hh2, Hh, Hi2, Ho2, <- app_assoc. done.
Qed.

(** X7. In every bank a run reaches, whatever call comes next, each account
    stays in the map under its key with the same id and owner, and its
    history is the old one with entries appended (possibly none). *)
Theorem accounts_stay_and_histories_grow cs c i X :
  Bank.a (run cs) !! i = Some X ->
  exists X' new,
    Bank.a (step (run cs) c) !! i = Some X' /\
    Account.id X' = Account.id X /\
    Account.owner X' = Account.owner X /\
    Account.hist X' = Account.hist X ++ new.
Proof.
  intros HX. pose proof (step_calls (run cs) c) as H.
  destruct c as [owner init| | | |];
    try (destruct H as [H _]; by apply (account_calls_keep _ _ i X H)).
  destruct H as [-> _]. exists X, []. rewrite app_nil_r.
  destruct (run_ids_ok cs) as [_ Hids].
  assert (is_Some (Bank.a (run cs) !! i)) as Hi%Hids by by eexists.
  rewrite lookup_insert_ne by lia. done.
Qed.

Lemma accounts_stay_and_histories_grow_witness :
  let cs := [CreateChecking "Alice" 100] in
  exists X' new,
    Bank.a (step (run cs) (CallWithdraw 1 30 "manual")) !! 1 = Some X' /\
    Account.id X' = 1 /\ Account.owner X' = "Alice" /\
    Account.hist X' = [Tx.mk 1 Deposit 100 "initial"] ++ new.
Proof.
  intros cs.
  apply (accounts_stay_and_histories_grow cs (CallWithdraw 1 30 "manual") 1
           (Account.mk 1 "Alice" 100 [Tx.mk 1 Deposit 100 "initial"])).
  vm_compute. reflexivity.
Defined.

(** X8. A call either appends entries to the global log (possibly none) or,
    when it is [undo], removes entries from its end: the log is never
    changed in any other way. *)
Theorem global_log_appended_or_popped b c :
  (exists new, Bank.log (step b c) = Bank.log b ++ new) \/
  (exists err popped, c = CallUndo err /\ Bank.log b = Bank.log (step b c) ++ popped).
Proof.
  destruct c as [owner init|id v note|id v note|from to v note|err]; simpl.
  - left. rewrite createChecking_spec. by eexists.
  - left. destruct (Bank.deposit id v note b) as [[e|[]] b'] eqn:Hd; simpl.
    + apply bank_deposit_inl in Hd as ->. exists []. by rewrite app_nil_r.
    + apply bank_deposit_inr in Hd as (X & X' & _ & _ & ->). by eexists.
  - left. destruct (Bank.withdraw id v note b) as [[e|[]] b'] eqn:Hd; simpl.
    + apply bank_withdraw_inl in Hd as ->. exists []. by rewrite app_nil_r.
    + apply bank_withdraw_inr in Hd as (X & X' & _ & _ & ->). by eexists.
  - left. destruct (Bank.transfer from to v note b) as [[e|[]] b'] eqn:Ht; simpl.
    + exists []. rewrite app_nil_r.
      by apply transfer_inl in Ht as [->|(_ & _ & _ & A & A' & _ & _ & ->)].
    + apply transfer_inr in Ht as (_ & A & A' & B & B' & _ & _ & _ & _ & ->).
      by eexists.
  - right. exists err.
    destruct (undo_branches err b)
      as [[_ E]|[(l & lastTx & Hl & E)|(l & prev & lastTx & Hl & Hp & E)]];
      rewrite E; unfold Bank.try_catch.
    + exists []. by rewrite app_nil_r.
    + destruct (Bank.undo_single lastTx b) as [[e|[]] b'] eqn:Hu; simpl.
      * apply undo_single_inl in Hu as ->. exists []. by rewrite app_nil_r.
      * apply undo_single_inr in Hu as (X & X' & _ & _ & ->). simpl.
        exists [lastTx]. by rewrite Hl, removelast_last.
    + destruct (Bank.undo_pair prev lastTx b) as [[e|[]] b'] eqn:Hu; simpl.
      * exists []. rewrite app_nil_r.
        by apply undo_pair_inl in Hu as [->|(_ & T & T' & _ & _ & ->)].
      * apply undo_pair_inr in Hu as (T & T' & F & F' & _ & _ & _ & _ & ->). simpl.
        exists [prev; lastTx]. by rewrite Hl, tail_removelast.
Qed.

(** ** Where the code departs from the specification *)

(** C1 fails on the code. A transfer from an existing account to an account
    that is not in the map throws [NotFound] after the withdrawal has been
    applied: the source has lost the amount and gained a [Withdraw] entry in
    its history, while the global log is as before. *)
Theorem transfer_to_missing_account_keeps_withdrawal :
  let b := run [CreateChecking "Alice" 100] in
  let t := Bank.transfer 1 2 40 "manual" b in
  fst t = inl (NotFound "no account") /\
  Bank.log (snd t) = Bank.log b /\
  Bank.a b !! 1
  = Some (Account.mk 1 "Alice" 100 [Tx.mk 1 Deposit 100 "initial"]) /\
  Bank.a (snd t) !! 1
  = Some (Account.mk 1 "Alice" 60 [Tx.mk 1 Deposit 100 "initial";
                                   Tx.mk 1 Withdraw 40 "to 2: manual"]).
Proof. vm_compute. repeat split; reflexivity. Qed.

(** C2 fails on the code. [createChecking] with the negative initial
    balance -5 does not throw: it returns the new id 1 and leaves an account
    whose balance is -5, with an empty history, and an empty global log. *)
Theorem createChecking_accepts_negative_initial_balance :
  Bank.createChecking "Mallory" (-5) Bank.init
  = (inr 1, {| Bank.a := {[1 := Account.mk 1 "Mallory" (-5) []]};
               Bank.log := []; Bank.next := 2 |}).
Proof. vm_compute. reflexivity. Qed.

(** C3 fails on the code. After [createChecking] with initial balance -5 the
    new account's balance is below zero and differs from the signed sum of
    its (empty) history, which is 0. *)
Theorem negative_initial_balance_breaks_balance_invariant :
  let b := run [CreateChecking "Mallory" (-5)] in
  exists X,
    Bank.a b !! 1 = Some X /\
    (Account.bal X <? 0)%float = true /\
    signed_sum (Account.hist X) = 0%float /\
    (Account.bal X =? signed_sum (Account.hist X))%float = false.
Proof.
  exists (Account.mk 1 "Mallory" (-5) []). vm_compute. repeat split; reflexivity.
Qed.

(** C9 fails on the code. A deposit of NaN passes the guard [v <= 0] and is
    recorded: the last entry of the global log then carries the amount NaN,
    which is not above zero. *)
Theorem nan_deposit_reaches_global_log :
  let b := run [CreateChecking "Alice" 100; CallDeposit 1 nan "manual"] in
  last (Bank.log b) = Some (Tx.mk 1 Deposit nan "manual") /\
  (0 <? nan)%float = false.
Proof. vm_compute. split; reflexivity. Qed.

(** ** The scenario of the specification: a transfer and its undo *)

Example scenario_alice_bob :
  let b0 := Bank.init in
  let '(_, b1) := Bank.createChecking "Alice" 100 b0 in
  let '(_, b2) := Bank.createChecking "Bob" 0 b1 in
  let '(_, b3) := Bank.transfer 1 2 40 "manual" b2 in
  let '(r, b4) := Bank.undo "" b3 in
  (Account.bal <$> Bank.a b3 !! 1, Account.bal <$> Bank.a b3 !! 2,
   r, Account.bal <$> Bank.a b4 !! 1, Account.bal <$> Bank.a b4 !! 2,
   length (Bank.log b4))
  = (Some 60%float, Some 40%float, (true, ""), Some 100%float, Some 0%float, 1%nat).
Proof. vm_compute. reflexivity. Qed.

(** * More of the program *)

(** ** The guards on numbers *)

Section FloatGuard.
Local Open Scope float_scope.

Lemma ltb_irrefl (x : float) : (x <? x) = false.
Proof.
  rewrite FloatAxioms.ltb_spec. unfold SpecFloat.SFltb.
  destruct (Prim2SF x) as [s|s| |s m e] eqn:E; try (by destruct s).
  - reflexivity.
  - rewrite SFcompare_refl; [reflexivity|discriminate].
Qed.

(** A number that passed [v <= 0] is above zero. *)
Lemma guard_positive (v : float) :
  (v <=? 0) = false -> (v =? v) = true -> (0 <? v) = true.
Proof.
  rewrite FloatAxioms.leb_spec, FloatAxioms.eqb_spec, FloatAxioms.ltb_spec.
  change (Prim2SF 0) with (SpecFloat.S754_zero false).
  unfold SpecFloat.SFleb, SpecFloat.SFeqb, SpecFloat.SFltb.
  destruct (Prim2SF v) as [[]|[]| |[] m e]; simpl; intros; congruence.
Qed.
End FloatGuard.

(** ** How a call changes the global log *)

Lemma step_appended b c :
  (forall err, c <> CallUndo err) ->
  exists new, Bank.log (step b c) = Bank.log b ++ new /\ appended b c new.
Proof.
  intros Hc. destruct c as [owner init|id v note|id v note|from to v note|err];
    simpl; [| | | |by destruct (Hc err)].
  - rewrite createChecking_spec. by eexists.
  - destruct (Bank.deposit id v note b) as [[e|[]] b'] eqn:Hd; simpl.
    + apply bank_deposit_inl in Hd as ->. exists []. rewrite app_nil_r. by split; [|left].
    + apply bank_deposit_inr in Hd as (X & X' & _ & [Hv _]%deposit_inr & ->).
      eexists. split; [done|]. by right.
  - destruct (Bank.withdraw id v note b) as [[e|[]] b'] eqn:Hd; simpl.
    + apply bank_withdraw_inl in Hd as ->. exists []. rewrite app_nil_r. by split; [|left].
    + apply bank_withdraw_inr in Hd as (X & X' & _ & [Hv _]%withdraw_inr & ->).
      eexists. split; [done|]. by right.
  - destruct (Bank.transfer from to v note b) as [[e|[]] b'] eqn:Ht; simpl.
    + exists []. rewrite app_nil_r. split; [|by left].
      by apply transfer_inl in Ht as [->|(_ & _ & _ & A & A' & _ & _ & ->)].
    + apply transfer_inr in Ht
        as (Hne & A & A' & B & B' & _ & [Hv _]%withdraw_inr & _ & _ & ->).
      eexists. split; [done|]. by right.
Qed.

(** [undo] leaves the global log alone, or removes its last entry when the
    tail is not a matched pair, or removes a matched pair. *)
Lemma undo_popped err b :
  Bank.log (snd (Bank.undo err b)) = Bank.log b \/
  (exists x, Bank.log b = Bank.log (snd (Bank.undo err b)) ++ [x] /\
             ~ pair_at_tail (Bank.log b)) \/
  (exists prev x, Bank.log b = Bank.log (snd (Bank.undo err b)) ++ [prev; x] /\
                  transfer_pair prev x).
Proof.
  destruct (Bank.log b) as [|x l _] eqn:Hl using rev_ind.
  { left. by rewrite (undo_empty err b Hl). }
  assert (Hsingle : ~ pair_at_tail (Bank.log b) ->
            Bank.log (snd (Bank.undo err b)) = l ++ [x] \/
            (exists x0, l ++ [x] = Bank.log (snd (Bank.undo err b)) ++ [x0] /\
                        ~ pair_at_tail (l ++ [x]))).
  { intros Hnp. rewrite (undo_single_branch err b l x Hl Hnp). unfold Bank.try_catch.
    destruct (Bank.undo_single x b) as [[e|[]] b'] eqn:Hu; simpl.
    - left. apply undo_single_inl in Hu as ->. done.
    - right. apply undo_single_inr in Hu as (X & X' & _ & _ & ->). simpl.
      exists x. rewrite Hl, removelast_last. split; [done|]. by rewrite <- Hl. }
  destruct l as [|prev l0 _] using rev_ind.
  - destruct Hsingle as [H|H]; [|by left|by right; left].
    intros (l' & p & y & E & _). rewrite Hl in E.
    apply (f_equal length) in E. rewrite !length_app in E. simpl in E. lia.
  - destruct (transfer_pair_dec prev x) as [Hp|Hnp].
    + rewrite <- app_assoc in Hl. simpl in Hl.
      rewrite (undo_pair_branch err b l0 prev x Hl Hp). unfold Bank.try_catch.
      destruct (Bank.undo_pair prev x b) as [[e|[]] b'] eqn:Hu; simpl.
      * left. rewrite <- app_assoc. simpl.
        by apply undo_pair_inl in Hu as [->|(_ & T & T' & _ & _ & ->)].
      * right. right. exists prev, x.
        apply undo_pair_inr in Hu as (T & T' & F & F' & _ & _ & _ & _ & ->). simpl.
        rewrite Hl, tail_removelast, <- app_assoc. done.
    + destruct Hsingle as [H|H]; [|by left|by right; left].
      intros (l' & p & y & E & Hp). rewrite Hl, <- app_assoc in E.
      apply tail_inj in E as (_ & -> & ->). done.
Qed.

Lemma step_log_positive b c :
  call_is_number c ->
  (forall x, x ∈ Bank.log b -> (0 <? Tx.amt x)%float = true) ->
  forall x, x ∈ Bank.log (step b c) -> (0 <? Tx.amt x)%float = true.
Proof.
  intros Hc Hb x Hx. destruct (decide (is_Some (match c with
                                                 | CallUndo err => Some err
                                                 | _ => None
                                                 end))) as [Hu|Hu].
  - destruct c as [| | | |err]; try by destruct Hu. simpl in Hx.
    apply Hb. destruct (undo_popped err b) as [E|[(y & E & _)|(p & y & E & _)]];
      [by rewrite <- E|rewrite E; set_solver..].
  - destruct (step_appended b c) as (new & E & Hnew).
    { intros err ->. apply Hu. by eexists. }
    rewrite E in Hx. apply elem_of_app in Hx as [Hx|Hx]; [by apply Hb|].
    destruct c as [owner init|id v note|id v note|from to v note|err]; simpl in *.
    + destruct (0 <? init)%float eqn:Hi; subst new; [|by apply elem_of_nil in Hx].
      by apply list_elem_of_singleton in Hx as ->.
    + destruct Hnew as [->|[Hv ->]]; [by apply elem_of_nil in Hx|].
      apply list_elem_of_singleton in Hx as ->. by apply guard_positive.
    + destruct Hnew as [->|[Hv ->]]; [by apply elem_of_nil in Hx|].
      apply list_elem_of_singleton in Hx as ->. by apply guard_positive.
    + destruct Hnew as [->|(Hv & _ & ->)]; [by apply elem_of_nil in Hx|].
      apply elem_of_cons in Hx as [->|Hx]; [by apply guard_positive|].
      apply list_elem_of_singleton in Hx as ->. by apply guard_positive.
    + subst new. by apply elem_of_nil in Hx.
Qed.

(** X11. In every bank reached by calls whose amounts are numbers (not
    NaN), every entry of the global log carries an amount above zero. *)
Theorem logged_amounts_above_zero cs x :
  Forall call_is_number cs ->
  x ∈ Bank.log (run cs) ->
  (0 <? Tx.amt x)%float = true.
Proof.
  unfold run. revert x. induction cs as [|c cs IH] using rev_ind; intros x Hcs.
  - simpl. intros Hx. by apply elem_of_nil in Hx.
  - apply Forall_app in Hcs as [Hcs Hc]. rewrite foldl_snoc.
    apply step_log_positive; [by inversion Hc|]. intros y. by apply IH.
Qed.

Lemma logged_amounts_above_zero_witness :
  (0 <? 40)%float = true.
Proof.
  apply (logged_amounts_above_zero
           [CreateChecking "Alice" 100; CreateChecking "Bob" 0;
            CallTransfer 1 2 40 "manual"]
           (Tx.mk 2 TransferIn 40 "from 1")).
  - repeat constructor.
  - vm_compute. set_solver.
Defined.

(** ** The global log is made of whole operations *)

Lemma whole_operations_pop_single l x :
  whole_operations (l ++ [x]) -> ~ pair_at_tail (l ++ [x]) -> whole_operations l.
Proof.
  intros H Hnp. inversion H as [E|l' y Hl' Hty E|l' p y Hl' Hp Hne E].
  - by destruct l.
  - by apply app_inj_tail in E as [-> _].
  - destruct Hnp. exists l', p, y. by rewrite E.
Qed.

Lemma whole_operations_pop_pair l prev x :
  whole_operations (l ++ [prev; x]) -> transfer_pair prev x -> whole_operations l.
Proof.
  intros H (_ & Hin & _). inversion H as [E|l' y Hl' Hty E|l' p y Hl' Hp Hne E].
  - by destruct l.
  - change (l ++ [prev; x]) with (l ++ [prev] ++ [x]) in E.
    rewrite app_assoc in E. apply app_inj_tail in E as [_ ->].
    destruct Hty; congruence.
  - by apply tail_inj in E as (-> & _ & _).
Qed.

Lemma step_whole_operations b c :
  call_is_number c ->
  whole_operations (Bank.log b) -> whole_operations (Bank.log (step b c)).
Proof.
  intros Hc Hb. destruct c as [owner init|id v note|id v note|from to v note|err].
  5:{ simpl. destruct (undo_popped err b) as [E|[(y & E & Hnp)|(p & y & E & Hp)]].
      - by rewrite E.
      - rewrite E in Hb, Hnp. by eapply whole_operations_pop_single.
      - rewrite E in Hb. by eapply whole_operations_pop_pair. }
  all: edestruct step_appended as (new & -> & Hnew); [done|]; simpl in *.
  - subst new. destruct (0 <? init)%float; [|by rewrite app_nil_r].
    apply whole_single; [done|by left].
  - destruct Hnew as [->|[_ ->]]; [by rewrite app_nil_r|].
    apply whole_single; [done|by left].
  - destruct Hnew as [->|[_ ->]]; [by rewrite app_nil_r|].
    apply whole_single; [done|by right].
  - destruct Hnew as [->|(_ & Hne & ->)]; [by rewrite app_nil_r|].
    apply whole_transfer; [done| |done]. by repeat split.
Qed.

(** X12. In every bank reached by calls whose amounts are numbers (not
    NaN), the global log is a sequence of whole operations: single [Deposit]
    and [Withdraw] entries, and [TransferOut]/[TransferIn] pairs of equal
    amount between two different accounts.  So a [TransferIn] at its end is
    always matched ([undo] reverses the transfer as a pair, never one half),
    and a [TransferOut] is never its last entry. *)
Theorem reachable_log_is_whole_operations cs :
  Forall call_is_number cs ->
  whole_operations (Bank.log (run cs)) /\
  forall l x,
    Bank.log (run cs) = l ++ [x] ->
    Tx.type x <> TransferOut /\
    (Tx.type x = TransferIn -> pair_at_tail (Bank.log (run cs))).
Proof.
  intros Hcs.
  assert (H : whole_operations (Bank.log (run cs))).
  { unfold run. induction cs as [|c cs IH] using rev_ind; [constructor|].
    apply Forall_app in Hcs as [Hcs Hc]. rewrite foldl_snoc.
    apply step_whole_operations; [by inversion Hc|by apply IH]. }
  split; [done|]. intros l x Hl. rewrite Hl in *.
  inversion H as [E|l' y Hl' Hty E|l' p y Hl' Hp Hne E].
  - by destruct l.
  - apply app_inj_tail in E as [_ ->]. split; destruct Hty; congruence.
  - change (l' ++ [p; y]) with (l' ++ [p] ++ [y]) in E.
    rewrite app_assoc in E. apply app_inj_tail in E as [E ->].
    destruct Hp as (Hout & Hin & Heq). split; [congruence|].
    intros _. exists l', p, x. split; [done|by repeat split].
Qed.

Lemma reachable_log_is_whole_operations_witness :
  let cs := [CreateChecking "Alice" 100; CreateChecking "Bob" 0;
             CallTransfer 1 2 40 "manual"; CallDeposit 2 5 "manual";
             CallUndo ""] in
  whole_operations (Bank.log (run cs)).
Proof.
  intros cs. apply (reachable_log_is_whole_operations cs).
  repeat constructor.
Defined.

(** ** What decides an undo *)

(** In a bank a run reaches, [undo] throws in no leg but a withdrawal that
    finds too little money. *)
Lemma undo_outcome cs err :
  match last (Bank.log (run cs)) with
  | None => Bank.undo err (run cs) = ((false, "nothing to undo"), run cs)
  | Some x =>
      exists X,
        Bank.a (run cs) !! Tx.acc x = Some X /\
        if increases (Tx.type x) && (Account.bal X <? Tx.amt x)%float
        then Bank.undo err (run cs) = ((false, "insufficient"), run cs)
        else exists b', Bank.undo err (run cs) = ((true, err), b')
  end.
Proof.
  pose proof (run_log_ok cs) as Hok. set (b := run cs) in *.
  destruct (undo_branches err b)
    as [[Hl E]|[(l & x & Hl & E)|(l & prev & x & Hl & Hp & E)]]; rewrite Hl.
  - done.
  - rewrite last_snoc.
    assert (Hx : x ∈ Bank.log b) by (rewrite Hl, elem_of_app, !elem_of_cons; tauto).
    pose proof (Hok x Hx) as [[X HX] Hv].
    exists X. split; [done|]. rewrite E, undo_single_reversal.
    unfold Bank.try_catch, Bank.bind, Bank.on_acc, Bank.bind, Bank.acc.
    rewrite HX. unfold reversal, increases.
    destruct (Tx.type x); simpl;
      unfold Account.withdraw, Account.deposit; rewrite Hv;
      try destruct (Account.bal X <? Tx.amt x)%float; simpl; by eauto.
  - rewrite tail_last.
    assert (Hx : x ∈ Bank.log b) by (rewrite Hl, elem_of_app, !elem_of_cons; tauto).
    assert (Hprev : prev ∈ Bank.log b) by (rewrite Hl, elem_of_app, !elem_of_cons; tauto).
    pose proof (Hok x Hx) as [[X HX] Hv]. pose proof (Hok prev Hprev) as [HF _].
    exists X. split; [done|]. destruct Hp as (_ & -> & _). rewrite E. simpl.
    unfold Bank.try_catch, Bank.undo_pair, Bank.bind, Bank.on_acc, Bank.bind, Bank.acc.
    rewrite HX. unfold Account.withdraw. rewrite Hv.
    destruct (Account.bal X <? Tx.amt x)%float; simpl; [done|].
    match goal with |- context [<[?k := ?v]> ?m !! ?j] =>
      destruct (insert_keeps_accounts m k v j HF) as [F ->] end.
    unfold Account.deposit. rewrite Hv. simpl. by eauto.
Qed.

(** X13. In every bank a run reaches, the last entry of the global log
    decides [undo]: with an empty log it reports "nothing to undo"; when the
    last entry increased a balance ([Deposit], [TransferIn]) and its account
    now holds less than the entry's amount, it reports "insufficient"; in
    both cases the bank is unchanged.  In every other case [undo] succeeds.
    No other error can come out of [undo]. *)
Theorem undo_decided_by_last_entry cs err :
  match last (Bank.log (run cs)) with
  | None => Bank.undo err (run cs) = ((false, "nothing to undo"), run cs)
  | Some x =>
      exists X,
        Bank.a (run cs) !! Tx.acc x = Some X /\
        if increases (Tx.type x) && (Account.bal X <? Tx.amt x)%float
        then Bank.undo err (run cs) = ((false, "insufficient"), run cs)
        else exists b', Bank.undo err (run cs) = ((true, err), b')
  end.
Proof. apply undo_outcome. Qed.

(** X14. [undo] right after a [createChecking] with an initial balance above
    zero succeeds; it does not remove the account: the account stays under
    its id with balance [init - init] and the history
    [Deposit "initial"; Withdraw "undo"], the "initial" entry leaves the
    global log, and the id is not handed out again ([next] stays
    advanced). *)
Theorem undo_after_create_empties_account owner init err b :
  (0 <? init)%float = true ->
  Bank.undo err (snd (Bank.createChecking owner init b))
  = ((true, err),
     {| Bank.a :=
          <[Bank.next b :=
              Account.mk (Bank.next b) owner (init - init)%float
                [Tx.mk (Bank.next b) Deposit init "initial";
                 Tx.mk (Bank.next b) Withdraw init "undo"]]> (Bank.a b);
        Bank.log := Bank.log b;
        Bank.next := Bank.next b + 1 |}).
Proof.
  intros Hinit. rewrite createChecking_spec. simpl. rewrite Hinit.
  erewrite undo_single_branch; [|simpl; reflexivity|].
  - rewrite undo_single_reversal.
    unfold Bank.try_catch, Bank.bind, Bank.on_acc, Bank.bind, Bank.acc. simpl.
    rewrite lookup_insert_eq. unfold reversal, Account.new. simpl.
    unfold Account.withdraw. simpl.
    rewrite (ltb_leb_false _ _ Hinit), ltb_irrefl, Hinit. simpl.
    unfold Bank.pop_back, Bank.set_acc. simpl.
    by rewrite insert_insert_eq, removelast_last.
  - simpl. intros (l' & p & x & E & _ & Hin & _).
    change (l' ++ [p; x]) with (l' ++ [p] ++ [x]) in E.
    rewrite app_assoc in E. apply app_inj_tail in E as [_ <-]. discriminate.
Qed.

Lemma undo_after_create_empties_account_witness :
  Account.bal
    <$> Bank.a (snd (Bank.undo "" (snd (Bank.createChecking "Alice" 100 Bank.init)))) !! 1
  = Some (100 - 100)%float.
Proof.
  rewrite (undo_after_create_empties_account "Alice" 100 "" Bank.init);
    [|reflexivity].
  simpl. by rewrite lookup_insert_eq.
Defined.

(** ** Ids and lookups *)

Lemma step_next b c :
  Bank.next (step b c) = Bank.next b + (if is_create c then 1 else 0).
Proof.
  pose proof (step_calls b c) as H.
  destruct c; destruct H as [_ ->]; simpl; lia.
Qed.

Lemma step_keys b c :
  (forall i, is_Some (Bank.a b !! i) <-> 1 <= i < Bank.next b) ->
  1 <= Bank.next b ->
  forall i, is_Some (Bank.a (step b c) !! i) <-> 1 <= i < Bank.next (step b c).
Proof.
  intros Hb Hn i. pose proof (step_calls b c) as H.
  destruct c as [owner init| | | |];
    try (destruct H as [H ->]; by rewrite (account_calls_dom _ _ i H)).
  destruct H as [-> ->]. destruct (decide (Bank.next b = i)) as [<-|Hne].
  - rewrite lookup_insert_eq. split; [lia|by eexists].
  - rewrite lookup_insert_ne, Hb by done. lia.
Qed.

Lemma run_keys cs :
  Bank.next (run cs) = 1 + Z.of_nat (length (List.filter is_create cs)) /\
  forall i, is_Some (Bank.a (run cs) !! i) <-> 1 <= i < Bank.next (run cs).
Proof.
  unfold run. induction cs as [|c cs [IHn IHk]] using rev_ind.
  - split; [done|]. intros i. simpl. rewrite lookup_empty. split; [by intros [? ?]|lia].
  - rewrite foldl_snoc. split.
    + rewrite step_next, IHn, List.filter_app, length_app. simpl.
      destruct (is_create c); simpl; lia.
    + apply step_keys; [done|lia].
Qed.

(** X15. Ids are handed out consecutively from 1 and never taken back: in
    every bank a run reaches, [next] is one more than the number of
    [createChecking] calls made, and the account map holds an account under
    exactly the ids 1, ..., [next - 1]. *)
Theorem account_ids_are_consecutive cs :
  Bank.next (run cs) = 1 + Z.of_nat (length (List.filter is_create cs)) /\
  forall i, is_Some (Bank.a (run cs) !! i) <-> 1 <= i < Bank.next (run cs).
Proof. apply run_keys. Qed.

(** X16. [Bank::acc] in a bank a run reaches: for an id that has been handed
    out it returns the account, whose own id is that id, and for any other
    id it throws [NotFound] ("no account"); the bank is unchanged either
    way. *)
Theorem acc_finds_exactly_handed_out_ids cs id :
  if decide (1 <= id < Bank.next (run cs))
  then exists X,
         Bank.acc id (run cs) = (inr X, run cs) /\ Account.id X = id
  else Bank.acc id (run cs) = (inl (NotFound "no account"), run cs).
Proof.
  destruct (run_keys cs) as [_ Hk]. unfold Bank.acc.
  destruct (decide (1 <= id < Bank.next (run cs))) as [Hid|Hid].
  - apply Hk in Hid as [X HX]. rewrite HX. exists X. split; [done|].
    apply (account_from_id (fun _ => True) id).
    apply (run_accounts_from (fun _ => True) cs); [|done].
    apply Forall_forall. intros c _. by destruct c.
  - destruct (Bank.a (run cs) !! id) as [X|] eqn:HX; [|done].
    destruct Hid. apply Hk. by eexists.
Qed.

(** ** The menu loop of [main] *)

Lemma iteration_bank b e : snd (iteration b e) = foldl step b (entry_call e).
Proof.
  destruct e as [name init|id v|id v|src dst v| |id| | |cmd];
    unfold iteration, serve, Bank.bind, Bank.ret, Bank.acc; simpl; try done.
  - by destruct (Bank.createChecking name init b) as [[ex|i] b'].
  - by destruct (Bank.deposit id v "manual" b) as [[ex|[]] b'].
  - by destruct (Bank.withdraw id v "manual" b) as [[ex|[]] b'].
  - by destruct (Bank.transfer src dst v "manual" b) as [[ex|[]] b'].
  - by destruct (Bank.a b !! id).
  - by destruct (Bank.undo "" b) as [[[] err] b'].
Qed.

Lemma loop_cons b e es :
  e <> MExit ->
  loop b (e :: es)
  = (Say menu :: fst (iteration b e) ++ fst (loop (snd (iteration b e)) es),
     snd (loop (snd (iteration b e)) es)) /\
  menu_calls (e :: es) = entry_call e ++ menu_calls es.
Proof.
  intros He. destruct e; try done; cbn [loop menu_calls];
    destruct (iteration b _) as [os b']; simpl; by destruct (loop b' es).
Qed.

Lemma loop_bank b es : snd (loop b es) = foldl step b (menu_calls es).
Proof.
  revert b. induction es as [|e es IH]; intros b; [done|].
  assert (He : e = MExit \/ e <> MExit) by (destruct e; (by left) || (by right)).
  destruct He as [->|He]; [done|].
  destruct (loop_cons b e es He) as [-> ->].
  simpl. by rewrite foldl_app, <- iteration_bank, IH.
Qed.

Lemma main_bank es : snd (main es) = run (menu_calls es).
Proof.
  unfold main, run. rewrite <- loop_bank. by destruct (loop Bank.init es).
Qed.

(** X17. Whatever commands [main] reads, the bank it holds when the loop
    ends is the one reached by the calls of the commands before the first
    [Exit], in order: [createChecking], [deposit], [withdraw] and [transfer]
    with the note "manual", and [undo]; listing, printing and unknown
    commands make no call that changes it, and no exception leaves the
    loop. *)
Theorem main_bank_is_run_of_its_calls es :
  snd (main es) = run (menu_calls es).
Proof. apply main_bank. Qed.

(** X18. When the [try] block of an iteration throws, the iteration writes
    the command's prompts and then "Error: " with the exception's message,
    and the bank is as it was -- unless the command was a transfer between
    two different ids whose destination is not in the map: then the message
    is "no account" and the source account has already lost the amount. *)
Theorem error_line_and_bank b e ex b' :
  serve e b = (inl ex, b') ->
  iteration b e = (prompts e ++ [Say ("Error: " +:+ what ex +:+ endl)], b') /\
  (b' = b \/
   exists src dst v A,
     e = MTransfer src dst v /\ src <> dst /\
     Bank.a b !! dst = None /\ Bank.a b !! src = Some A /\
     ex = NotFound "no account" /\
     Account.bal <$> Bank.a b' !! src = Some (Account.bal A - v)%float).
Proof.
  intros Hs. split; [unfold iteration; by rewrite Hs|]. revert Hs.
  destruct e as [name init|id v|id v|src dst v| |id| | |cmd];
    unfold serve, Bank.bind, Bank.ret, Bank.acc; try discriminate.
  - rewrite createChecking_spec. discriminate.
  - destruct (Bank.deposit id v "manual" b) as [[ex'|[]] b1] eqn:Hd; [|discriminate].
    intros [= <- <-]. left. by eapply bank_deposit_inl.
  - destruct (Bank.withdraw id v "manual" b) as [[ex'|[]] b1] eqn:Hd; [|discriminate].
    intros [= <- <-]. left. by eapply bank_withdraw_inl.
  - destruct (Bank.transfer src dst v "manual" b) as [[ex'|[]] b1] eqn:Ht; [|discriminate].
    intros [= <- <-].
    apply transfer_inl in Ht as [->|(Hne & Hdst & -> & A & A' & HA & HA' & ->)];
      [by left|right].
    exists src, dst, v, A. apply withdraw_inr in HA' as (_ & _ & ->).
    repeat split; try done. simpl. by rewrite lookup_insert_eq.
  - destruct (Bank.a b !! id); [discriminate|]. intros [= <- <-]. by left.
  - by destruct (Bank.undo "" b) as [[[] err] b1].
Qed.

Lemma error_line_and_bank_witness :
  let b := run [CreateChecking "Alice" 50] in
  iteration b (MWithdraw 1 80)
  = ([Say "acc id, amount: "; Say ("Error: insufficient" +:+ endl)], b).
Proof.
  intros b.
  destruct (error_line_and_bank b (MWithdraw 1 80) (Insufficient "insufficient") b)
    as [H _]; [vm_compute; reflexivity|exact H].
Defined.

(** X19. In the bank [main] holds after any input, the command Undo writes
    "Undo ok", or it writes "Undo failed: nothing to undo" or
    "Undo failed: insufficient" and leaves the bank unchanged; it writes no
    other failure. *)
Theorem main_undo_reply es :
  (exists b', iteration (snd (main es)) MUndo = ([Say ("Undo ok" +:+ endl)], b')) \/
  iteration (snd (main es)) MUndo
  = ([Say ("Undo failed: nothing to undo" +:+ endl)], snd (main es)) \/
  iteration (snd (main es)) MUndo
  = ([Say ("Undo failed: insufficient" +:+ endl)], snd (main es)).
Proof.
  rewrite main_bank. pose proof (undo_outcome (menu_calls es) "") as H.
  unfold iteration, serve.
  destruct (last (Bank.log (run (menu_calls es)))) as [x|].
  - destruct H as (X & _ & H).
    destruct (increases (Tx.type x) && (Account.bal X <? Tx.amt x)%float).
    + right. right. by rewrite H.
    + left. destruct H as [b' ->]. by eexists.
  - right. left. by rewrite H.
Qed.

(** X20. In the bank [main] holds after any input, the command Create never
    ends in an error: after its two prompts it writes "Created checking id="
    and the next id, which is one more than the number of accounts created
    so far. *)
Theorem main_create_reply es name init :
  exists b',
    iteration (snd (main es)) (MCreate name init)
    = ([Say "Owner: "; Say "Initial: ";
        Say ("Created checking id="
             +:+ pretty (1 + Z.of_nat (length (List.filter is_create (menu_calls es))))
             +:+ endl)], b').
Proof.
  rewrite main_bank. unfold iteration, serve, Bank.bind, Bank.ret.
  rewrite createChecking_spec. destruct (run_keys (menu_calls es)) as [-> _].
  by eexists.
Qed.

(** ** Histories and the global log *)

Lemma account_from_history ok i X y :
  account_from ok i X -> y ∈ Account.hist X ->
  (Tx.type y = Deposit \/ Tx.type y = Withdraw) /\
  Tx.acc y = i /\ (Tx.amt y <=? 0)%float = false.
Proof.
  induction 1 as [owner init _|X X' v note HX IH H|X X' v note HX IH H]; simpl.
  - destruct (0 <? init)%float eqn:Hinit; [|by intros ?%elem_of_nil].
    intros ->%list_elem_of_singleton. simpl.
    repeat split; [by left|by apply ltb_leb_false].
  - apply deposit_inr in H as [Hv ->]. simpl.
    intros [Hy| ->%list_elem_of_singleton]%elem_of_app; [by apply IH|]. simpl.
    repeat split; [by left|by eapply account_from_id|done].
  - apply withdraw_inr in H as (Hv & _ & ->). simpl.
    intros [Hy| ->%list_elem_of_singleton]%elem_of_app; [by apply IH|]. simpl.
    repeat split; [by right|by eapply account_from_id|done].
Qed.

(** X21. In every bank a run reaches, each entry of an account's own history
    is a [Deposit] or a [Withdraw] (never [TransferIn] or [TransferOut]:
    those kinds appear in the global log only, so [Account::print] only ever
    shows the labels "Dep +" and "Wdr -"), names the id the account is
    stored under, and carries an amount that passed the guard [v <= 0]. *)
Theorem history_entries_are_deposits_and_withdrawals cs i X y :
  Bank.a (run cs) !! i = Some X ->
  y ∈ Account.hist X ->
  (Tx.type y = Deposit \/ Tx.type y = Withdraw) /\
  (typ (Tx.type y) = "Dep +" \/ typ (Tx.type y) = "Wdr -") /\
  Tx.acc y = i /\ (Tx.amt y <=? 0)%float = false.
Proof.
  intros HX Hy.
  assert (H : account_from (fun _ => True) i X).
  { apply (run_accounts_from (fun _ => True) cs); [|done].
    apply Forall_forall. intros c _. by destruct c. }
  destruct (account_from_history _ i X y H Hy) as (Hk & Hi & Hv).
  repeat split; try done. destruct Hk as [-> | ->]; [by left|by right].
Qed.

Lemma history_entries_are_deposits_and_withdrawals_witness :
  let cs := [CreateChecking "Alice" 100; CreateChecking "Bob" 0;
             CallTransfer 1 2 40 "manual"] in
  let y := Tx.mk 2 Deposit 40 "from 1: manual" in
  (Tx.type y = Deposit \/ Tx.type y = Withdraw) /\
  (typ (Tx.type y) = "Dep +" \/ typ (Tx.type y) = "Wdr -") /\
  Tx.acc y = 2 /\ (Tx.amt y <=? 0)%float = false.
Proof.
  intros cs y.
  apply (history_entries_are_deposits_and_withdrawals cs 2
           (Account.mk 2 "Bob" 40 [y]) y).
  - vm_compute. reflexivity.
  - simpl. by apply list_elem_of_singleton.
Defined.

Lemma backed_call m m' x : account_call m m' -> backed m x -> backed m' x.
Proof.
  intros Hc (X & y & HX & Hy & Ha & Ht).
  destruct (account_call_keeps m m' (Tx.acc x) X Hc HX) as (X' & new & HX' & _ & _ & Hh).
  exists X', y. rewrite Hh. repeat split; try done. apply elem_of_app. by left.
Qed.

Lemma backed_calls m m' x : rtc account_call m m' -> backed m x -> backed m' x.
Proof. induction 1; eauto using backed_call. Qed.

Lemma backed_new (m : gmap Z Account.t) i X k v note note' :
  m !! i = Some X ->
  Tx.mk (Account.id X) (if increases k then Deposit else Withdraw) v note'
    ∈ Account.hist X ->
  backed m (Tx.mk i k v note).
Proof.
  intros HX Hy. eexists X, _. simpl. repeat split; [done|exact Hy|done..].
Qed.

Lemma step_backed b c :
  ids_ok b ->
  (forall x, x ∈ Bank.log b -> backed (Bank.a b) x) ->
  forall x, x ∈ Bank.log (step b c) -> backed (Bank.a (step b c)) x.
Proof.
  intros [_ Hids] Hb.
  assert (Hold : forall x, x ∈ Bank.log b -> backed (Bank.a (step b c)) x).
  { intros x Hx. pose proof (step_calls b c) as H.
    destruct c as [owner init| | | |];
      try (destruct H as [H _]; by apply (backed_calls _ _ x H), Hb).
    destruct H as [-> _]. destruct (Hb x Hx) as (X & y & HX & Hy).
    exists X, y. split; [|done]. rewrite lookup_insert_ne; [done|].
    assert (is_Some (Bank.a b !! Tx.acc x)) as Hi%Hids by by eexists. lia. }
  intros x Hx.
  destruct c as [owner init|id v note|id v note|from to v note|err]; simpl in *.
  - rewrite createChecking_spec in *. simpl in *.
    apply elem_of_app in Hx as [Hx|Hx]; [by apply Hold|].
    destruct (0 <? init)%float eqn:Hinit; [|by apply elem_of_nil in Hx].
    apply list_elem_of_singleton in Hx as ->.
    eapply backed_new; [by rewrite lookup_insert_eq|].
    unfold Account.new. simpl. rewrite Hinit. by apply list_elem_of_singleton.
  - destruct (Bank.deposit id v note b) as [[e|[]] b'] eqn:Hd; simpl in *.
    + apply bank_deposit_inl in Hd as ->. by apply Hb.
    + apply bank_deposit_inr in Hd as (X & X' & HX & [_ ->]%deposit_inr & ->).
      simpl in *. apply elem_of_app in Hx as [Hx|Hx]; [by apply Hold|].
      apply list_elem_of_singleton in Hx as ->.
      eapply backed_new; [by rewrite lookup_insert_eq|].
      simpl. apply elem_of_app. right. by apply list_elem_of_singleton.
  - destruct (Bank.withdraw id v note b) as [[e|[]] b'] eqn:Hd; simpl in *.
    + apply bank_withdraw_inl in Hd as ->. by apply Hb.
    + apply bank_withdraw_inr in Hd as (X & X' & HX & (_ & _ & ->)%withdraw_inr & ->).
      simpl in *. apply elem_of_app in Hx as [Hx|Hx]; [by apply Hold|].
      apply list_elem_of_singleton in Hx as ->.
      eapply backed_new; [by rewrite lookup_insert_eq|].
      simpl. apply elem_of_app. right. by apply list_elem_of_singleton.
  - destruct (Bank.transfer from to v note b) as [[e|[]] b'] eqn:Ht; simpl in *.
    + apply Hold.
      by apply transfer_inl in Ht as [->|(_ & _ & _ & A & A' & _ & _ & ->)].
    + apply transfer_inr in Ht
        as (Hne & A & A' & B & B' & HA & (_ & _ & ->)%withdraw_inr
            & HB & [_ ->]%deposit_inr & ->).
      simpl in *. apply elem_of_app in Hx as [Hx|Hx]; [by apply Hold|].
      apply elem_of_cons in Hx as [->|Hx].
      * eapply backed_new; [by rewrite lookup_insert_ne, lookup_insert_eq|].
        simpl. apply elem_of_app. right. by apply list_elem_of_singleton.
      * apply list_elem_of_singleton in Hx as ->.
        eapply backed_new; [by rewrite lookup_insert_eq|].
        simpl. apply elem_of_app. right. by apply list_elem_of_singleton.
  - apply Hold.
    destruct (undo_popped err b) as [E|[(y & E & _)|(p & y & E & _)]];
      [by rewrite <- E|rewrite E, elem_of_app; by left..].
Qed.

(** X22. In every bank a run reaches, every entry of the global log is
    backed by the history of its account: the account is in the map and its
    history holds an entry of the same amount, a [Deposit] for a logged
    [Deposit] or [TransferIn] and a [Withdraw] for a logged [Withdraw] or
    [TransferOut]. *)
Theorem log_entries_backed_by_histories cs x :
  x ∈ Bank.log (run cs) -> backed (Bank.a (run cs)) x.
Proof.
  revert x. unfold run. induction cs as [|c cs IH] using rev_ind; intros x.
  - simpl. by intros ?%elem_of_nil.
  - rewrite foldl_snoc. apply step_backed; [apply run_ids_ok|done].
Qed.

Lemma log_entries_backed_by_histories_witness :
  let cs := [CreateChecking "Alice" 100; CreateChecking "Bob" 0;
             CallTransfer 1 2 40 "manual"] in
  backed (Bank.a (run cs)) (Tx.mk 1 TransferOut 40 "to 2").
Proof.
  intros cs. apply (log_entries_backed_by_histories cs).
  vm_compute. set_solver.
Defined.
